(** * The emoji picker of ckeditor5-emoji: model and properties

    A shallow embedding of
    [packages/ckeditor5-emoji/src/emojipicker.ts] (the [EmojiPicker] plugin)
    and of [packages/ckeditor5-emoji/src/emojilibraryintegration.ts]
    (the mention feed of [EmojiLibraryIntegration]).

    Conventions.
    - A JavaScript string is a [string].  A length is taken of search
      texts only; there one character stands for one UTF-16 code unit, so
      that [String.length] is the [.length] of the source.  Glyphs and
      names are only compared and passed on.
    - [undefined] and [null] are [None].
    - The registry [_emojis : Map<string, Array<string>>] is a
      [gmap string (list string)].
    - An [async] method is split at its single [await]: the part that runs
      synchronously when the method is called, and the part that runs when
      the awaited promise settles.  Promises that reject without a handler
      are recorded in the world. *)

From Stdlib Require Import ZArith Ascii String.
From stdpp Require Import gmap strings list sorting.

(** ** Values coming from the emoji database ([emoji-picker-element]) *)

(** A skin tone variant of an emoji: [{ tone, unicode }]. *)
Record EmojiSkin := {
  tone : Z;
  skin_unicode : string
}.

(** A native emoji as the database returns it.  [skins] is an optional
    property: [None] is the property being absent ([!( 'skins' in item )]). *)
Record NativeEmoji := {
  annotation : string;
  unicode : string;
  skins : option (list EmojiSkin)
}.

(** An entry of a search result: a native emoji, or a custom emoji, which
    carries a [name] but no [annotation] property. *)
Inductive QueriedEmoji :=
  | Native (e : NativeEmoji)
  | Custom (custom_name : string).

(** What can be thrown: the rejection of a database promise, and the
    [TypeError] of reading a property of [undefined]. *)
Inductive Error :=
  | DataUnavailable
  | TypeError.

(** A settled promise of the database. *)
Inductive Settled (A : Type) :=
  | Resolved (a : A)
  | Rejected (e : Error).
Arguments Resolved {A} a.
Arguments Rejected {A} e.

Record Database := {
  getEmojiByGroup : Z → Settled (list NativeEmoji);
  getEmojiBySearchQuery : string → Settled (list QueriedEmoji)
}.

(** ** The data of the picker *)

Record EmojiItem := {
  name : string;
  emojis : list string
}.

Record EmojiGroup := {
  title : string;
  exampleEmoji : string;
  items : list EmojiItem
}.

(** A tile of the grid, [gridView.createTile( emoji, name )].  The first
    argument is the value of an array read, which may be [undefined]. *)
Record Tile := {
  tile_emoji : option string;
  tile_name : string
}.

(** The data of the grid's [execute] event. *)
Record ExecuteData := {
  data_name : string;
  data_emoji : string
}.

(** A search whose promise has not settled yet: the query that was passed
    to [getEmojiBySearchQuery], and whether the caller of [_updateGrid]
    chained [.then( () => this._balloon.updatePosition() )]. *)
Record Pending := {
  query : string;
  reposition : bool
}.

(** The plugin ([_emojis] ... [_emojiDatabase]), the two views
    [_updateGrid] works on ([gridView.tiles], [categoriesView]), the searches
    in flight, and what the host observes. *)
Record World := {
  _emojis : gmap string (list string);
  _emojiGroups : list EmojiGroup;
  _selectedSkinTone : nat;
  _searchQuery : option string;
  _emojiDatabase : Database;
  tiles : list Tile;
  currentCategoryName : string;
  categoriesEnabled : bool;
  inflight : list Pending;
  inserted : list string;
  shown : bool;
  positionUpdates : nat;
  unhandled : list Error
}.

Definition set_emojis (m : gmap string (list string)) (w : World) : World :=
  {| _emojis := m; _emojiGroups := _emojiGroups w;
     _selectedSkinTone := _selectedSkinTone w; _searchQuery := _searchQuery w;
     _emojiDatabase := _emojiDatabase w; tiles := tiles w;
     currentCategoryName := currentCategoryName w;
     categoriesEnabled := categoriesEnabled w; inflight := inflight w;
     inserted := inserted w; shown := shown w;
     positionUpdates := positionUpdates w; unhandled := unhandled w |}.

Definition set_emojiGroups (gs : list EmojiGroup) (w : World) : World :=
  {| _emojis := _emojis w; _emojiGroups := gs;
     _selectedSkinTone := _selectedSkinTone w; _searchQuery := _searchQuery w;
     _emojiDatabase := _emojiDatabase w; tiles := tiles w;
     currentCategoryName := currentCategoryName w;
     categoriesEnabled := categoriesEnabled w; inflight := inflight w;
     inserted := inserted w; shown := shown w;
     positionUpdates := positionUpdates w; unhandled := unhandled w |}.

Definition set_selectedSkinTone (k : nat) (w : World) : World :=
  {| _emojis := _emojis w; _emojiGroups := _emojiGroups w;
     _selectedSkinTone := k; _searchQuery := _searchQuery w;
     _emojiDatabase := _emojiDatabase w; tiles := tiles w;
     currentCategoryName := currentCategoryName w;
     categoriesEnabled := categoriesEnabled w; inflight := inflight w;
     inserted := inserted w; shown := shown w;
     positionUpdates := positionUpdates w; unhandled := unhandled w |}.

Definition set_searchQuery (q : option string) (w : World) : World :=
  {| _emojis := _emojis w; _emojiGroups := _emojiGroups w;
     _selectedSkinTone := _selectedSkinTone w; _searchQuery := q;
     _emojiDatabase := _emojiDatabase w; tiles := tiles w;
     currentCategoryName := currentCategoryName w;
     categoriesEnabled := categoriesEnabled w; inflight := inflight w;
     inserted := inserted w; shown := shown w;
     positionUpdates := positionUpdates w; unhandled := unhandled w |}.

Definition set_tiles (ts : list Tile) (w : World) : World :=
  {| _emojis := _emojis w; _emojiGroups := _emojiGroups w;
     _selectedSkinTone := _selectedSkinTone w; _searchQuery := _searchQuery w;
     _emojiDatabase := _emojiDatabase w; tiles := ts;
     currentCategoryName := currentCategoryName w;
     categoriesEnabled := categoriesEnabled w; inflight := inflight w;
     inserted := inserted w; shown := shown w;
     positionUpdates := positionUpdates w; unhandled := unhandled w |}.

Definition set_currentCategoryName (n : string) (w : World) : World :=
  {| _emojis := _emojis w; _emojiGroups := _emojiGroups w;
     _selectedSkinTone := _selectedSkinTone w; _searchQuery := _searchQuery w;
     _emojiDatabase := _emojiDatabase w; tiles := tiles w;
     currentCategoryName := n;
     categoriesEnabled := categoriesEnabled w; inflight := inflight w;
     inserted := inserted w; shown := shown w;
     positionUpdates := positionUpdates w; unhandled := unhandled w |}.

Definition set_categoriesEnabled (b : bool) (w : World) : World :=
  {| _emojis := _emojis w; _emojiGroups := _emojiGroups w;
     _selectedSkinTone := _selectedSkinTone w; _searchQuery := _searchQuery w;
     _emojiDatabase := _emojiDatabase w; tiles := tiles w;
     currentCategoryName := currentCategoryName w;
     categoriesEnabled := b; inflight := inflight w;
     inserted := inserted w; shown := shown w;
     positionUpdates := positionUpdates w; unhandled := unhandled w |}.

Definition set_inflight (ps : list Pending) (w : World) : World :=
  {| _emojis := _emojis w; _emojiGroups := _emojiGroups w;
     _selectedSkinTone := _selectedSkinTone w; _searchQuery := _searchQuery w;
     _emojiDatabase := _emojiDatabase w; tiles := tiles w;
     currentCategoryName := currentCategoryName w;
     categoriesEnabled := categoriesEnabled w; inflight := ps;
     inserted := inserted w; shown := shown w;
     positionUpdates := positionUpdates w; unhandled := unhandled w |}.

Definition set_inserted (l : list string) (w : World) : World :=
  {| _emojis := _emojis w; _emojiGroups := _emojiGroups w;
     _selectedSkinTone := _selectedSkinTone w; _searchQuery := _searchQuery w;
     _emojiDatabase := _emojiDatabase w; tiles := tiles w;
     currentCategoryName := currentCategoryName w;
     categoriesEnabled := categoriesEnabled w; inflight := inflight w;
     inserted := l; shown := shown w;
     positionUpdates := positionUpdates w; unhandled := unhandled w |}.

Definition set_shown (b : bool) (w : World) : World :=
  {| _emojis := _emojis w; _emojiGroups := _emojiGroups w;
     _selectedSkinTone := _selectedSkinTone w; _searchQuery := _searchQuery w;
     _emojiDatabase := _emojiDatabase w; tiles := tiles w;
     currentCategoryName := currentCategoryName w;
     categoriesEnabled := categoriesEnabled w; inflight := inflight w;
     inserted := inserted w; shown := b;
     positionUpdates := positionUpdates w; unhandled := unhandled w |}.

Definition set_positionUpdates (n : nat) (w : World) : World :=
  {| _emojis := _emojis w; _emojiGroups := _emojiGroups w;
     _selectedSkinTone := _selectedSkinTone w; _searchQuery := _searchQuery w;
     _emojiDatabase := _emojiDatabase w; tiles := tiles w;
     currentCategoryName := currentCategoryName w;
     categoriesEnabled := categoriesEnabled w; inflight := inflight w;
     inserted := inserted w; shown := shown w;
     positionUpdates := n; unhandled := unhandled w |}.

Definition set_unhandled (l : list Error) (w : World) : World :=
  {| _emojis := _emojis w; _emojiGroups := _emojiGroups w;
     _selectedSkinTone := _selectedSkinTone w; _searchQuery := _searchQuery w;
     _emojiDatabase := _emojiDatabase w; tiles := tiles w;
     currentCategoryName := currentCategoryName w;
     categoriesEnabled := categoriesEnabled w; inflight := inflight w;
     inserted := inserted w; shown := shown w;
     positionUpdates := positionUpdates w; unhandled := l |}.

(** How a call of a method of the plugin ends: it returns a value, or it
    throws (for an [async] method: its promise is fulfilled or rejected).
    Both carry the world as the call left it. *)
Inductive Completion (A : Type) :=
  | Fulfilled (a : A) (w : World)
  | Threw (e : Error) (w : World).
Arguments Fulfilled {A} a w.
Arguments Threw {A} e w.

Definition world_of {A} (c : Completion A) : World :=
  match c with
  | Fulfilled _ w => w
  | Threw _ w => w
  end.

(** ** [_getEmojiGroup] *)

(** [skins.sort( ( a, b ) => a.tone - b.tone )].  [Array.prototype.sort] is
    stable; the stable sort is written as an insertion sort, which puts an
    element before the first one the comparator does not rank below it. *)
Definition compareTone (a b : EmojiSkin) : Z := (tone a - tone b)%Z.

Fixpoint insertSkin (a : EmojiSkin) (l : list EmojiSkin) : list EmojiSkin :=
  match l with
  | [] => [a]
  | b :: l' =>
      if (compareTone a b <=? 0)%Z then a :: b :: l' else b :: insertSkin a l'
  end.

Fixpoint sortSkins (l : list EmojiSkin) : list EmojiSkin :=
  match l with
  | [] => []
  | a :: l' => insertSkin a (sortSkins l')
  end.

(** The body of the callback of [databaseGroup.map] without its
    [this._emojis.set]: the name and the glyphs of one record. *)
Definition emojisOf (item : NativeEmoji) : list string :=
  unicode item ::
  match skins item with
  | Some sk => skin_unicode <$> sortSkins sk
  | None => []
  end.

Definition toEmojiItem (item : NativeEmoji) : EmojiItem :=
  {| name := annotation item; emojis := emojisOf item |}.

(** [databaseGroup.map( item => ... )]: the records in the order of the
    database, each one registered in [_emojis] on the way. *)
Fixpoint registerItems (m : gmap string (list string)) (l : list NativeEmoji)
  : list EmojiItem * gmap string (list string) :=
  match l with
  | [] => ([], m)
  | item :: l' =>
      let it := toEmojiItem item in
      let '(its, m') := registerItems (<[name it := emojis it]> m) l' in
      (it :: its, m')
  end.

(** [_getEmojiGroup( { databaseId, title, exampleEmoji } )].  There is no
    [try]: when the awaited promise rejects, so does the method. *)
Definition _getEmojiGroup (databaseId : Z) (title0 exampleEmoji0 : string)
    (w : World) : Completion EmojiGroup :=
  match getEmojiByGroup (_emojiDatabase w) databaseId with
  | Rejected e => Threw e w
  | Resolved databaseGroup =>
      let '(its, m') := registerItems (_emojis w) databaseGroup in
      Fulfilled {| title := title0; exampleEmoji := exampleEmoji0; items := its |}
                (set_emojis m' w)
  end.

(** [init]: the nine groups of the picker. *)
Definition groupConfigs : list (Z * string * string) :=
  [ (0%Z, "Smileys & Expressions", "😀");
    (1%Z, "Gestures & People", "👋");
    (3%Z, "Animals & Nature", "🐻");
    (4%Z, "Food & Drinks", "🍎");
    (5%Z, "Travel & Places", "🚘");
    (6%Z, "Activities", "🏀");
    (7%Z, "Objects", "💡");
    (8%Z, "Symbols", "🟢");
    (9%Z, "Flags", "🏁") ].

(** [Promise.all( [ this._getEmojiGroup( ... ), ... ] )], with the database
    promises settling in the order of the calls.  A rejection rejects the
    whole; the loads after it still run and still register their records. *)
Fixpoint loadGroups (cfgs : list (Z * string * string)) (w : World)
  : Completion (list EmojiGroup) :=
  match cfgs with
  | [] => Fulfilled [] w
  | (databaseId, title0, exampleEmoji0) :: cfgs' =>
      match _getEmojiGroup databaseId title0 exampleEmoji0 w with
      | Threw e w' => Threw e (world_of (loadGroups cfgs' w'))
      | Fulfilled g w' =>
          match loadGroups cfgs' w' with
          | Fulfilled gs w'' => Fulfilled (g :: gs) w''
          | Threw e w'' => Threw e w''
          end
      end
  end.

Definition init (w : World) : Completion unit :=
  match loadGroups groupConfigs w with
  | Fulfilled gs w' => Fulfilled tt (set_emojiGroups gs w')
  | Threw e w' => Threw e w'
  end.

(** ** [_addTilesToGrid], [_getEmojisForCategory], [_updateGrid] *)

(** Truthiness of a string: only the empty string is falsy. *)
Definition truthy (s : string) : bool :=
  match s with
  | EmptyString => false
  | String _ _ => true
  end.

(** [item.emojis[ this._selectedSkinTone ] || item.emojis[ 0 ]]. *)
Definition toneGlyph (selectedSkinTone : nat) (item : EmojiItem) : option string :=
  match emojis item !! selectedSkinTone with
  | Some emoji => if truthy emoji then Some emoji else emojis item !! 0
  | None => emojis item !! 0
  end.

Definition createTile (emoji : option string) (name0 : string) : Tile :=
  {| tile_emoji := emoji; tile_name := name0 |}.

(** The [for ... of] loop of [_addTilesToGrid]: one [tiles.add] per item. *)
Definition _addTilesToGrid (emojisForCategory : list EmojiItem) (w : World) : World :=
  foldl (λ w item,
           let emoji := toneGlyph (_selectedSkinTone w) item in
           set_tiles (tiles w ++ [createTile emoji (name item)]) w)
        w emojisForCategory.

(** [this._emojiGroups.find( group => group.title === groupName )!.items]:
    [find] yields [undefined] when no title matches, and reading [.items]
    of it throws. *)
Definition findGroup (groupName : string) (groups : list EmojiGroup) : option EmojiGroup :=
  List.find (λ group, String.eqb (title group) groupName) groups.

Definition _getEmojisForCategory (groupName : string) (w : World)
  : Completion (list EmojiItem) :=
  match findGroup groupName (_emojiGroups w) with
  | Some group => Fulfilled (items group) w
  | None => Threw TypeError w
  end.

(** [!this._searchQuery || this._searchQuery.length < 2]. *)
Definition tooShort (searchQuery : option string) : bool :=
  match searchQuery with
  | None => true
  | Some s => negb (truthy s) || (String.length s <? 2)
  end.

(** A call of [_updateGrid] runs to its end, or stops at
    [await this._emojiDatabase.getEmojiBySearchQuery( this._searchQuery )]
    with the query it passed. *)
Inductive Suspended :=
  | Finished (c : Completion unit)
  | Awaiting (q : string) (w : World).

Definition _updateGrid (w : World) : Suspended :=
  let w := set_tiles [] w in
  if tooShort (_searchQuery w) then
    match _getEmojisForCategory (currentCategoryName w) w with
    | Fulfilled emojisForCategory w =>
        Finished (Fulfilled tt
          (set_categoriesEnabled true (_addTilesToGrid emojisForCategory w)))
    | Threw e w => Finished (Threw e w)
    end
  else
    (* Here [this._searchQuery] is a string of length 2 or more. *)
    Awaiting (default "" (_searchQuery w)) w.

(** The name under which a search result entry is looked up: its
    [annotation] when it has one, else the initial ['']. *)
Definition queriedName (queriedEmoji : QueriedEmoji) : string :=
  match queriedEmoji with
  | Native e => annotation e
  | Custom _ => ""
  end.

(** The callback of [queryResult.map]: [null] when [_emojis] has no entry
    for the name (an array, even an empty one, is truthy). *)
Definition resolveQueried (w : World) (queriedEmoji : QueriedEmoji) : option EmojiItem :=
  let name0 := queriedName queriedEmoji in
  match _emojis w !! name0 with
  | None => None
  | Some emojis0 => Some {| name := name0; emojis := emojis0 |}
  end.

(** [array.filter( Boolean )] on an array of objects and [null]s. *)
Fixpoint filterBoolean {A} (l : list (option A)) : list A :=
  match l with
  | [] => []
  | Some x :: l' => x :: filterBoolean l'
  | None :: l' => filterBoolean l'
  end.

(** The rest of [_updateGrid], run when the search promise settles. *)
Definition _updateGrid_resume (r : Settled (list QueriedEmoji)) (w : World)
  : Completion unit :=
  match r with
  | Rejected e => Threw e w
  | Resolved queryResult =>
      let tilesToAdd := resolveQueried w <$> queryResult in
      Fulfilled tt
        (set_categoriesEnabled false (_addTilesToGrid (filterBoolean tilesToAdd) w))
  end.

(** ** The handlers of [_createDropdownPanelContent] and [showUI] *)

(** What follows the promise of [_updateGrid]: the chained
    [updatePosition] where there is one; a rejection has no handler. *)
Definition afterUpdate (reposition0 : bool) (c : Completion unit) : World :=
  match c with
  | Fulfilled _ w =>
      if reposition0 then set_positionUpdates (S (positionUpdates w)) w else w
  | Threw e w => set_unhandled (unhandled w ++ [e]) w
  end.

Definition callUpdateGrid (reposition0 : bool) (w : World) : World :=
  match _updateGrid w with
  | Finished c => afterUpdate reposition0 c
  | Awaiting q w' =>
      set_inflight (inflight w' ++ [{| query := q; reposition := reposition0 |}]) w'
  end.

(** [_hideUI] while the picker view exists. *)
Definition _hideUI (w : World) : World :=
  set_searchQuery (Some "") (set_shown false w).

(** The events the picker reacts to.  [SearchSettles i] is the promise of
    the [i]-th search in flight settling. *)
Inductive Event :=
  | SearchInput (value : string)
  | CategoryChange (newName : string)
  | ToneChange (newValue : nat)
  | GridExecute (data : ExecuteData)
  | SearchSettles (i : nat).

Definition handle (w : World) (ev : Event) : World :=
  match ev with
  | SearchInput value =>
      callUpdateGrid true (set_searchQuery (Some value) w)
  | CategoryChange newName =>
      callUpdateGrid false (set_currentCategoryName newName w)
  | ToneChange newValue =>
      callUpdateGrid false (set_selectedSkinTone newValue w)
  | GridExecute data =>
      _hideUI (set_inserted (inserted w ++ [data_emoji data]) w)
  | SearchSettles i =>
      match inflight w !! i with
      | None => w
      | Some p =>
          afterUpdate (reposition p)
            (_updateGrid_resume
               (getEmojiBySearchQuery (_emojiDatabase w) (query p))
               (set_inflight (delete i (inflight w)) w))
      end
  end.

Definition run (w : World) (evs : list Event) : World := foldl handle w evs.

(** The tiles a list of records is rendered to at a tone. *)
Definition tileOf (selectedSkinTone : nat) (item : EmojiItem) : Tile :=
  createTile (toneGlyph selectedSkinTone item) (name item).

(** ** The mention feed of [EmojiLibraryIntegration] *)

Record MentionFeedObjectItem := {
  id : string;
  text : option string
}.

(** [annotation.replace( /[ :]+/g, '_' )]: every maximal run of spaces and
    colons becomes one underscore. *)
Definition isSeparator (c : Ascii.ascii) : bool :=
  Ascii.eqb c " "%char || Ascii.eqb c ":"%char.

Fixpoint replaceRuns (inRun : bool) (s : string) : string :=
  match s with
  | EmptyString => EmptyString
  | String c s' =>
      if isSeparator c then
        if inRun then replaceRuns true s' else String "_"%char (replaceRuns true s')
      else String c (replaceRuns false s')
  end.

(** [array.filter( ( item, index ) => ... )]. *)
Fixpoint filterIndexed {A} (p : A → nat → bool) (index : nat) (l : list A) : list A :=
  match l with
  | [] => []
  | x :: l' =>
      if p x index then x :: filterIndexed p (S index) l'
      else filterIndexed p (S index) l'
  end.

Section MentionFeed.
(** [formatEmojiId] and [getShowAllEmojiId] of [./utils.js], and the
    lower-casing of the host's locale. *)
Variable formatEmojiId : string → string.
Variable getShowAllEmojiId : string.
Variable toLocaleLowerCase : string → string.

Definition feedItem (emoji : NativeEmoji) : MentionFeedObjectItem :=
  {| id := formatEmojiId (toLocaleLowerCase (replaceRuns false (annotation emoji)));
     text := Some (unicode emoji) |}.

(** The [map] over the result read as [Array<NativeEmoji>]: an entry
    without [annotation] makes [.replace] throw. *)
Fixpoint feedItems (queryResult : list QueriedEmoji)
  : Settled (list MentionFeedObjectItem) :=
  match queryResult with
  | [] => Resolved []
  | Native emoji :: l' =>
      match feedItems l' with
      | Resolved r => Resolved (feedItem emoji :: r)
      | Rejected e => Rejected e
      end
  | Custom _ :: _ => Rejected TypeError
  end.

Definition showAllItem : MentionFeedObjectItem :=
  {| id := getShowAllEmojiId; text := None |}.

(** The feed function [getQueryEmojiFn( queryLimit )] returns, applied to a
    query.  [queryLimit] is a count, an integer. *)
Definition getQueryEmojiFn (queryLimit : Z) (emojiDatabase : Database)
    (searchQuery : string) : Settled (list MentionFeedObjectItem) :=
  match getEmojiBySearchQuery emojiDatabase searchQuery with
  | Rejected e => Rejected e
  | Resolved queryResult =>
      match feedItems queryResult with
      | Rejected e => Rejected e
      | Resolved processedQuery =>
          Resolved
            (filterIndexed (λ _ index, (Z.of_nat index <? queryLimit - 1)%Z) 0
                           processedQuery
             ++ [showAllItem])
      end
  end.
End MentionFeed.

(** ** A small database and picker to run the model on *)

Module Sample.
Definition grinning : NativeEmoji :=
  {| annotation := "grinning face"; unicode := "😀"; skins := None |}.

Definition wave : NativeEmoji :=
  {| annotation := "waving hand"; unicode := "👋";
     skins := Some [ {| tone := 3; skin_unicode := "👋🏽" |};
                     {| tone := 1; skin_unicode := "👋🏻" |};
                     {| tone := 2; skin_unicode := "👋🏼" |} ] |}.

(** An emoji the index knows and no group contains. *)
Definition ghost : NativeEmoji :=
  {| annotation := "ghost"; unicode := "👻"; skins := None |}.

Definition db : Database :=
  {| getEmojiByGroup := λ databaseId,
       if (databaseId =? 0)%Z then Resolved [grinning]
       else if (databaseId =? 1)%Z then Resolved [wave]
       else Resolved [];
     getEmojiBySearchQuery := λ q,
       if String.eqb q "gr" then Resolved [Native grinning]
       else if String.eqb q "wa" then Resolved [Native wave; Native ghost]
       else if String.eqb q "zz" then Rejected DataUnavailable
       else Resolved [] |}.

(** A database whose group 3 cannot be loaded. *)
Definition brokenDb : Database :=
  {| getEmojiByGroup := λ databaseId,
       if (databaseId =? 3)%Z then Rejected DataUnavailable
       else getEmojiByGroup db databaseId;
     getEmojiBySearchQuery := getEmojiBySearchQuery db |}.

(** The plugin as its constructor leaves it, with a panel on
    the first category. *)
Definition fresh (database : Database) : World :=
  {| _emojis := ∅; _emojiGroups := []; _selectedSkinTone := 0;
     _searchQuery := None; _emojiDatabase := database; tiles := [];
     currentCategoryName := "Smileys & Expressions";
     categoriesEnabled := true; inflight := []; inserted := [];
     shown := true; positionUpdates := 0; unhandled := [] |}.

(** The picker after [init]. *)
Definition loaded : World := world_of (init (fresh db)).
End Sample.

(** ** Notions the properties are stated with *)

(** Ascending tone. *)
Definition toneLe (a b : EmojiSkin) : Prop := (tone a ≤ tone b)%Z.

(** What [_getEmojiGroup] promises about one record, given the database
    item it was made from. *)
Definition variantsOf (item : NativeEmoji) (r : EmojiItem) : Prop :=
  name r = annotation item ∧
  emojis r !! 0 = Some (unicode item) ∧
  ∃ sorted : list EmojiSkin,
    emojis r = unicode item :: (skin_unicode <$> sorted) ∧
    Sorted toneLe sorted ∧
    sorted ≡ₚ default [] (skins item).

(** The glyph a record with the glyphs [glyphs] is shown with at tone rank
    [k], in the words of the specification: the glyph of rank [k] where the
    record has one, else the glyph of rank 0.  (An empty string is no
    glyph.) *)
Definition rendersAt (k : nat) (glyphs : list string) (shown : option string) : Prop :=
  (∀ g, glyphs !! k = Some g → g ≠ "" → shown = Some g) ∧
  (glyphs !! k = None → shown = glyphs !! 0) ∧
  (glyphs !! k = Some "" → shown = glyphs !! 0).

(** The tiles a search result is rendered to. *)
Definition searchTiles (w : World) (queryResult : list QueriedEmoji) : list Tile :=
  tileOf (_selectedSkinTone w) <$> filterBoolean (resolveQueried w <$> queryResult).

(** The glyphs of the [execute] events of a run, in order. *)
Definition executedGlyphs (evs : list Event) : list string :=
  omap (λ ev, match ev with
              | GridExecute data => Some (data_emoji data)
              | _ => None
              end) evs.

(** What [init] leaves and every handler keeps: each registered record has
    a glyph at index 0, each item of a group has one and is registered
    under its name, and so has each tile of the grid. *)
Definition registryNonEmpty (m : gmap string (list string)) : Prop :=
  ∀ n em, m !! n = Some em → em ≠ [].

Definition groupsRegistered (w : World) : Prop :=
  ∀ g item, g ∈ _emojiGroups w → item ∈ items g →
            emojis item ≠ [] ∧ is_Some (_emojis w !! name item).

Definition tileResolved (w : World) (t : Tile) : Prop :=
  is_Some (tile_emoji t) ∧ is_Some (_emojis w !! tile_name t).

Definition pickerInvariant (w : World) : Prop :=
  registryNonEmpty (_emojis w) ∧ groupsRegistered w ∧
  Forall (tileResolved w) (tiles w).

(** The group [init] makes of a configuration and the items the database
    has for its id. *)
Definition groupOf (data : Z → list NativeEmoji) (cfg : Z * string * string)
  : EmojiGroup :=
  let '(databaseId, title0, exampleEmoji0) := cfg in
  {| title := title0; exampleEmoji := exampleEmoji0;
     items := toEmojiItem <$> data databaseId |}.

(** ** The documentation snippet adapter ([scripts/docs/snippetadapter.mjs])

    An object used as a map from strings is the [gmap] of its own
    properties.  A plain object also inherits the members of
    [Object.prototype]: a read of a key the object does not own yields the
    inherited member, where there is one. *)

(** The names of the members of [Object.prototype].  Each is a function,
    or for [__proto__] the prototype itself: a truthy value. *)
Definition objectPrototypeMembers : list string :=
  [ "constructor"; "__defineGetter__"; "__defineSetter__"; "hasOwnProperty";
    "__lookupGetter__"; "__lookupSetter__"; "isPrototypeOf";
    "propertyIsEnumerable"; "toString"; "valueOf"; "__proto__";
    "toLocaleString" ].

Definition inheritedMember (key : string) : bool :=
  existsb (String.eqb key) objectPrototypeMembers.

(** [path.startsWith( name )] and [name.endsWith( suffix )]. *)
Definition startsWith (s prefix0 : string) : bool := String.prefix prefix0 s.

Definition endsWith (s suffix0 : string) : bool :=
  (String.length suffix0 <=? String.length s) &&
  String.eqb
    (String.substring (String.length s - String.length suffix0)
                      (String.length suffix0) s)
    suffix0.

(** The [onResolve] callback of the [external] plugin of [buildSnippet]:
    [externals.some( name => name.endsWith( '/' ) ?
       args.path.startsWith( name ) : args.path === name )]. *)
Definition isExternal (externals : list string) (path : string) : bool :=
  existsb (λ name0, if endsWith name0 "/" then startsWith path name0
                    else String.eqb path name0)
          externals.

(** [imports[ key ] ||= value] on a plain object of strings: the entry is
    set when the read of [imports[ key ]] is falsy, that is when the object
    owns the key with the empty string, or does not own it and inherits
    nothing under it.  Under the name of a member of [Object.prototype] the
    read yields that member, which is truthy, and nothing is assigned. *)
Definition orAssign (key value : string) (imports : gmap string string)
  : gmap string string :=
  match imports !! key with
  | Some current => if truthy current then imports else <[key := value]> imports
  | None => if inheritedMember key then imports else <[key := value]> imports
  end.

(** No entry is the empty string. *)
Definition allTruthy (imports : gmap string string) : Prop :=
  ∀ k v, imports !! k = Some v → v ≠ "".

(** The object literal [getImportMap] starts from. *)
Definition cdnCore : string :=
  "https://cdn.ckeditor.com/ckeditor5/nightly-next/ckeditor5.js".
Definition cdnCoreDir : string :=
  "https://cdn.ckeditor.com/ckeditor5/nightly-next/".
Definition cdnCommercial : string :=
  "https://cdn.ckeditor.com/ckeditor5-premium-features/nightly-next/ckeditor5-premium-features.js".
Definition cdnCommercialDir : string :=
  "https://cdn.ckeditor.com/ckeditor5-premium-features/nightly-next/".

Definition baseImports : gmap string string :=
  <["ckeditor5-premium-features/" := cdnCommercialDir]>
  (<["ckeditor5-premium-features" := cdnCommercial]>
  (<["ckeditor5/" := cdnCoreDir]>
  (<["ckeditor5" := cdnCore]> ∅))).

(** One of the two loops of [getImportMap], over the names of the
    dependencies of a package: [imports[ dependency ] ||= imports[ main ]]
    and the same for [`${ dependency }/dist/index.js`].  The entry of
    [main] is read each time; it is a string, the entry being there from
    the start. *)
Definition addDependencies (main : string) (dependencies : list string)
    (imports : gmap string string) : gmap string string :=
  foldl (λ imports dependency,
           let imports :=
             orAssign dependency (default "" (imports !! main)) imports in
           orAssign (String.append dependency "/dist/index.js")
                    (default "" (imports !! main)) imports)
        imports dependencies.

(** [getImportMap], given the keys of the [dependencies] of the two
    [package.json] files it reads. *)
Definition getImportMap (coreDependencies commercialDependencies : list string)
  : gmap string string :=
  addDependencies "ckeditor5-premium-features" commercialDependencies
    (addDependencies "ckeditor5" coreDependencies baseImports).

(** The keys the loops of [getImportMap] try to set for a list of
    dependencies. *)
Definition dependencyKeys (dependencies : list string) : list string :=
  dependencies ++ ((λ dependency, String.append dependency "/dist/index.js")
                     <$> dependencies).

(** [Object.keys( imports )]; the order of the keys plays no role in
    [some]. *)
Definition externalsOf (imports : gmap string string) : list string :=
  (map_to_list imports).*1.

(** A snippet as the adapter receives it. *)
Record SnippetSource := {
  html : string;
  css : option string;
  js : option string
}.

Record Snippet := {
  snippetSources : SnippetSource;
  snippetName : string;
  outputPath : string;
  destinationPath : string;
  basePath : string;
  relativeOutputPath : string;
  pageSourcePath : string
}.

(** The grouping loop of [buildDocuments]:
    [documents[ snippet.destinationPath ] ??= [];
     documents[ snippet.destinationPath ].push( snippet )]. *)
Definition groupByDocument (documents : gmap string (list Snippet))
    (snippets : list Snippet) : gmap string (list Snippet) :=
  foldl (λ documents snippet,
           let documents :=
             match documents !! destinationPath snippet with
             | Some _ => documents
             | None => <[destinationPath snippet := []]> documents
             end in
           alter (λ l, l ++ [snippet]) (destinationPath snippet) documents)
        documents snippets.

(** The constants of one [docs/constants.js] merged into the definitions
    gathered so far, in [getConstantDefinitions].  The values of constants
    are any data; their truthiness and [!==] are given.  The gathered
    definitions are a plain object: for a constant it does not own it reads
    the member of [Object.prototype] of that name, where there is one, which
    is truthy and is not a value of a constant. *)
Section ConstantDefinitions.
Variable Value : Type.
Variable truthyValue : Value → bool.
Variable strictNotEqual : Value → Value → bool.

(** The [for ... in] loop: it throws at the first constant for which
    [constantDefinitions[ constantName ]] reads a truthy value that is not
    the new value, and names it. *)
Fixpoint defineConstants (constantDefinitions : gmap string Value)
    (packageConstantDefinitions : list (string * Value))
  : string + gmap string Value :=
  match packageConstantDefinitions with
  | [] => inr constantDefinitions
  | (constantName, constantValue) :: rest =>
      let duplicated :=
        match constantDefinitions !! constantName with
        | Some current => truthyValue current && strictNotEqual current constantValue
        | None => inheritedMember constantName
        end in
      if duplicated then inl constantName
      else defineConstants (<[constantName := constantValue]> constantDefinitions) rest
  end.

(** [Object.assign( constantDefinitions, packageConstantDefinitions )]. *)
Definition objectAssign (constantDefinitions : gmap string Value)
    (packageConstantDefinitions : list (string * Value)) : gmap string Value :=
  foldl (λ m kv, <[kv.1 := kv.2]> m) constantDefinitions packageConstantDefinitions.

Definition mergeConstants (constantDefinitions : gmap string Value)
    (packageConstantDefinitions : list (string * Value))
  : string + gmap string Value :=
  match defineConstants constantDefinitions packageConstantDefinitions with
  | inl constantName => inl constantName
  | inr defined => inr (objectAssign defined packageConstantDefinitions)
  end.
End ConstantDefinitions.

(** * Properties *)

(** ** Basic facts about the operations *)

Lemma set_tiles_same (w : World) : set_tiles (tiles w) w = w.
Proof. by destruct w. Qed.

(** The loop of [_addTilesToGrid] appends one tile per item, in order, all
    rendered at the tone selected when the loop starts. *)
Lemma addTilesToGrid_eq (l : list EmojiItem) (w : World) :
  _addTilesToGrid l w
  = set_tiles (tiles w ++ (tileOf (_selectedSkinTone w) <$> l)) w.
Proof.
  unfold _addTilesToGrid. revert w.
  induction l as [|item l IH]; intros w; simpl.
  - rewrite app_nil_r. by rewrite set_tiles_same.
  - rewrite IH. simpl. by rewrite <- app_assoc.
Qed.

Lemma tiles_addTilesToGrid (l : list EmojiItem) (w : World) :
  tiles (_addTilesToGrid l w) = tiles w ++ (tileOf (_selectedSkinTone w) <$> l).
Proof. by rewrite addTilesToGrid_eq. Qed.

Lemma tooShort_spec (q : option string) :
  tooShort q = true ↔ ∀ s, q = Some s → String.length s < 2.
Proof.
  destruct q as [s|]; unfold tooShort.
  - rewrite orb_true_iff, Nat.ltb_lt. split.
    + intros [H|H] s' [= <-]; [|done]. destruct s; [simpl; lia | done].
    + intros H. right. by apply H.
  - split; [intros _ s [=] | done].
Qed.

Lemma tooShort_false (s : string) :
  2 ≤ String.length s → tooShort (Some s) = false.
Proof.
  intros H. unfold tooShort. destruct s as [|c s]; [simpl in H; lia|]. simpl.
  apply Nat.ltb_ge. simpl in H. lia.
Qed.

(** [find] by title: what it returns has the title, and it returns nothing
    exactly when no group has it. *)
Lemma findGroup_Some (groupName : string) (groups : list EmojiGroup) (g : EmojiGroup) :
  findGroup groupName groups = Some g → g ∈ groups ∧ title g = groupName.
Proof.
  unfold findGroup. intros H. apply find_some in H as [Hin Heq].
  split; [by apply list_elem_of_In | by apply String.eqb_eq].
Qed.

Lemma findGroup_None (groupName : string) (groups : list EmojiGroup) :
  findGroup groupName groups = None ↔ ∀ g, g ∈ groups → title g ≠ groupName.
Proof.
  unfold findGroup. split.
  - intros H g Hin Heq.
    pose proof (find_none _ _ H g (proj1 (list_elem_of_In _ _) Hin)) as Hf.
    simpl in Hf. apply String.eqb_neq in Hf. done.
  - intros H. destruct (find _ groups) as [g|] eqn:E; [|done].
    apply find_some in E as [Hin Heq]. apply String.eqb_eq in Heq.
    exfalso. by apply (H g); [apply list_elem_of_In|].
Qed.

Local Arguments tooShort : simpl never.

(** The browsing branch of [_updateGrid], whichever way the query is short. *)
Lemma updateGrid_browsing (w : World) :
  tooShort (_searchQuery w) = true →
  _updateGrid w =
    match findGroup (currentCategoryName w) (_emojiGroups w) with
    | Some group =>
        Finished (Fulfilled tt
          (set_categoriesEnabled true
             (set_tiles (tileOf (_selectedSkinTone w) <$> items group) w)))
    | None => Finished (Threw TypeError (set_tiles [] w))
    end.
Proof.
  intros H. unfold _updateGrid, _getEmojisForCategory. simpl.
  rewrite H. destruct (findGroup _ _); [|done].
  by rewrite addTilesToGrid_eq.
Qed.

Lemma updateGrid_searching (w : World) (s : string) :
  _searchQuery w = Some s → 2 ≤ String.length s →
  _updateGrid w = Awaiting s (set_tiles [] w).
Proof.
  intros E H. unfold _updateGrid. simpl. rewrite E.
  by rewrite (tooShort_false s H).
Qed.

Lemma updateGrid_resume_resolved (w : World) (queryResult : list QueriedEmoji) :
  _updateGrid_resume (Resolved queryResult) w =
    Fulfilled tt (set_categoriesEnabled false
                    (set_tiles (tiles w ++ searchTiles w queryResult) w)).
Proof. unfold _updateGrid_resume. by rewrite addTilesToGrid_eq. Qed.

(** ** Group loads: the tone variants of a record *)

Section GroupLoad.
Lemma insertSkin_perm (a : EmojiSkin) (l : list EmojiSkin) :
  insertSkin a l ≡ₚ a :: l.
Proof.
  induction l as [|b l IH]; simpl; [done|].
  destruct (compareTone a b <=? 0)%Z; [done|].
  rewrite IH. apply Permutation_swap.
Qed.

Lemma insertSkin_hd (a c : EmojiSkin) (l : list EmojiSkin) :
  toneLe c a → HdRel toneLe c l → HdRel toneLe c (insertSkin a l).
Proof.
  intros Hca Hl. destruct l as [|b l]; simpl; [by constructor|].
  destruct (compareTone a b <=? 0)%Z; constructor; [done|].
  by inversion Hl.
Qed.

Lemma insertSkin_sorted (a : EmojiSkin) (l : list EmojiSkin) :
  Sorted toneLe l → Sorted toneLe (insertSkin a l).
Proof.
  induction 1 as [|b l Hs IH Hhd]; simpl.
  - by repeat constructor.
  - destruct (compareTone a b <=? 0)%Z eqn:E.
    + constructor; [by constructor|]. constructor.
      unfold toneLe, compareTone in *. lia.
    + constructor; [done|]. apply insertSkin_hd; [|done].
      unfold toneLe, compareTone in *. lia.
Qed.

Lemma sortSkins_sorted (l : list EmojiSkin) : Sorted toneLe (sortSkins l).
Proof.
  induction l as [|a l IH]; simpl; [constructor|].
  by apply insertSkin_sorted.
Qed.

Lemma sortSkins_perm (l : list EmojiSkin) : sortSkins l ≡ₚ l.
Proof.
  induction l as [|a l IH]; simpl; [done|].
  by rewrite insertSkin_perm, IH.
Qed.

Lemma toEmojiItem_variants (item : NativeEmoji) : variantsOf item (toEmojiItem item).
Proof.
  split; [done|]. split; [done|].
  unfold toEmojiItem, emojisOf; simpl. destruct (skins item) as [sk|]; simpl.
  - exists (sortSkins sk). split; [done|].
    split; [apply sortSkins_sorted | apply sortSkins_perm].
  - exists []. split; [done|]. split; [constructor | done].
Qed.

Lemma registerItems_fst (l : list NativeEmoji) (m : gmap string (list string)) :
  (registerItems m l).1 = toEmojiItem <$> l.
Proof.
  revert m. induction l as [|item l IH]; intros m; simpl; [done|].
  specialize (IH (<[annotation item := emojisOf item]> m)).
  destruct (registerItems _ l) as [its m']. simpl in *. by rewrite IH.
Qed.

(** C6.  A group load whose database promise resolves is fulfilled, and
    its records are the database's items, in order; in each record the
    base glyph is at index 0 (so index 0 is defined, with or without skin
    tone data) and is followed by the glyphs of the item's skin tone
    variants sorted by ascending tone. *)
Theorem getEmojiGroup_variants_sorted
    (databaseId : Z) (title0 exampleEmoji0 : string) (w : World)
    (databaseGroup : list NativeEmoji) :
  getEmojiByGroup (_emojiDatabase w) databaseId = Resolved databaseGroup →
  ∃ g w',
    _getEmojiGroup databaseId title0 exampleEmoji0 w = Fulfilled g w' ∧
    title g = title0 ∧
    Forall2 variantsOf databaseGroup (items g).
Proof.
  intros Hdb. unfold _getEmojiGroup. rewrite Hdb.
  pose proof (registerItems_fst databaseGroup (_emojis w)) as Hfst.
  destruct (registerItems _ databaseGroup) as [its m']. simpl in Hfst. subst its.
  eexists _, _. split; [done|]. split; [done|]. simpl.
  apply Forall2_fmap_r, Forall2_same_length_lookup_2; [done|].
  intros i x y Hx Hy. rewrite Hx in Hy. injection Hy as <-.
  apply toEmojiItem_variants.
Qed.

Lemma getEmojiGroup_variants_sorted_witness :
  ∃ g w',
    _getEmojiGroup 1 "Gestures & People" "👋" (Sample.fresh Sample.db)
      = Fulfilled g w' ∧
    title g = "Gestures & People" ∧
    Forall2 variantsOf [Sample.wave] (items g).
Proof.
  apply (getEmojiGroup_variants_sorted 1 "Gestures & People" "👋"
           (Sample.fresh Sample.db) [Sample.wave]).
  reflexivity.
Defined.
End GroupLoad.

(** ** Rendering: tone fallback *)

Section Rendering.
(** With a non-empty glyph at the selected index, that glyph is rendered. *)
Lemma toneGlyph_present (k : nat) (item : EmojiItem) (g : string) :
  emojis item !! k = Some g → g ≠ "" → toneGlyph k item = Some g.
Proof.
  intros Hk Hg. unfold toneGlyph. rewrite Hk. by destruct g.
Qed.

(** With nothing at the selected index, the glyph at index 0 is. *)
Lemma toneGlyph_absent (k : nat) (item : EmojiItem) :
  emojis item !! k = None → toneGlyph k item = emojis item !! 0.
Proof. intros Hk. unfold toneGlyph. by rewrite Hk. Qed.

(** The empty string is falsy: [||] falls back to index 0 for it as well. *)
Lemma toneGlyph_empty (k : nat) (item : EmojiItem) :
  emojis item !! k = Some "" → toneGlyph k item = emojis item !! 0.
Proof. intros Hk. unfold toneGlyph. by rewrite Hk. Qed.

(** C4.  [_addTilesToGrid] adds one tile per record, in order; the tile of
    a record that has a glyph at the selected tone rank shows that glyph,
    and the tile of a record with no glyph at that rank shows the glyph at
    rank 0, whatever other ranks the record has.  (A glyph is a non-empty
    string.) *)
Theorem addTilesToGrid_tone_fallback
    (w : World) (l : list EmojiItem) (i : nat) (item : EmojiItem) :
  l !! i = Some item →
  ∃ t : Tile,
    tiles (_addTilesToGrid l w) !! (length (tiles w) + i) = Some t ∧
    tile_name t = name item ∧
    (∀ g, emojis item !! _selectedSkinTone w = Some g → g ≠ "" →
          tile_emoji t = Some g) ∧
    (emojis item !! _selectedSkinTone w = None →
     tile_emoji t = emojis item !! 0).
Proof.
  intros Hi. exists (tileOf (_selectedSkinTone w) item).
  split; [|split; [done|split]].
  - rewrite tiles_addTilesToGrid, lookup_app_r by lia.
    replace (length (tiles w) + i - length (tiles w)) with i by lia.
    by rewrite list_lookup_fmap, Hi.
  - intros g Hg Hne. by apply toneGlyph_present.
  - apply toneGlyph_absent.
Qed.

Lemma addTilesToGrid_tone_fallback_witness :
  let w := set_selectedSkinTone 2 Sample.loaded in
  let l := [toEmojiItem Sample.grinning; toEmojiItem Sample.wave] in
  ∃ t : Tile,
    tiles (_addTilesToGrid l w) !! (length (tiles w) + 0) = Some t ∧
    tile_name t = "grinning face" ∧
    (∀ g, emojis (toEmojiItem Sample.grinning) !! 2 = Some g → g ≠ "" →
          tile_emoji t = Some g) ∧
    (emojis (toEmojiItem Sample.grinning) !! 2 = None →
     tile_emoji t = emojis (toEmojiItem Sample.grinning) !! 0).
Proof.
  intros w l.
  apply (addTilesToGrid_tone_fallback w l 0 (toEmojiItem Sample.grinning)).
  reflexivity.
Defined.
End Rendering.

(** ** Recomputing the grid *)

Section UpdateGrid.
Lemma set_tiles_set_tiles (ts ts' : list Tile) (w : World) :
  set_tiles ts (set_tiles ts' w) = set_tiles ts w.
Proof. done. Qed.

Lemma findGroup_first (n : string) (before after : list EmojiGroup)
    (group : EmojiGroup) :
  title group = n → (∀ g, g ∈ before → title g ≠ n) →
  findGroup n (before ++ group :: after) = Some group.
Proof.
  intros Htitle Hbefore. unfold findGroup.
  induction before as [|g before IH]; cbn [app find].
  - by rewrite (proj2 (String.eqb_eq _ _) Htitle).
  - rewrite (proj2 (String.eqb_neq _ _) (Hbefore g (list_elem_of_here _ _))).
    apply IH. intros g' Hg'. apply Hbefore. by apply list_elem_of_further.
Qed.

Lemma toneGlyph_rendersAt (k : nat) (item : EmojiItem) :
  rendersAt k (emojis item) (toneGlyph k item).
Proof.
  unfold rendersAt, toneGlyph. split; [|split].
  - intros g Hg Hne. rewrite Hg. by destruct g.
  - by intros ->.
  - by intros ->.
Qed.

Lemma tileOf_renders (k : nat) (l : list EmojiItem) :
  Forall2 (λ item t, tile_name t = name item ∧
                     rendersAt k (emojis item) (tile_emoji t))
          l (tileOf k <$> l).
Proof.
  apply Forall2_fmap_r, Forall_Forall2_diag, Forall_forall.
  intros item _. split; [done | apply toneGlyph_rendersAt].
Qed.

(** The names of the tiles of a search result: the names of the result
    that the registry knows, in the order of the result. *)
Lemma searchTiles_names (w : World) (queryResult : list QueriedEmoji) :
  tile_name <$> searchTiles w queryResult =
    filter (λ n, is_Some (_emojis w !! n)) (queriedName <$> queryResult).
Proof.
  unfold searchTiles.
  induction queryResult as [|q l IH]; [done|].
  rewrite !fmap_cons, filter_cons. cbn [filterBoolean].
  unfold resolveQueried at 1.
  destruct (_emojis w !! queriedName q) as [em|] eqn:E.
  - rewrite decide_True by eauto. by rewrite !fmap_cons, IH.
  - rewrite decide_False by (by intros [? ?]). done.
Qed.

(** C5.  With a search text shorter than 2 (or none), [_updateGrid]
    finishes at once.  Where the first loaded group whose title is the
    current category name is [group], the grid then holds one tile per item
    of [group], in order, under the item's name and with the item's glyph of
    the selected tone rank, or of rank 0 where it has none of that rank,
    whatever the grid and the categories view held before; the categories
    are enabled and nothing else changes.  With a search text of length 2 or
    more it awaits the search for that very text, and the grid is then
    filled from the search result: the tiles are named after the entries of
    the result that the registry knows, and the categories are disabled. *)
Theorem updateGrid_length2_boundary (w : World) :
  (∀ before group after,
     (∀ s, _searchQuery w = Some s → String.length s < 2) →
     _emojiGroups w = before ++ group :: after →
     title group = currentCategoryName w →
     (∀ g, g ∈ before → title g ≠ currentCategoryName w) →
     ∃ w',
       _updateGrid w = Finished (Fulfilled tt w') ∧
       w' = set_categoriesEnabled true (set_tiles (tiles w') w) ∧
       Forall2 (λ item t,
                  tile_name t = name item ∧
                  rendersAt (_selectedSkinTone w) (emojis item) (tile_emoji t))
               (items group) (tiles w')) ∧
  (∀ s,
     _searchQuery w = Some s → 2 ≤ String.length s →
     _updateGrid w = Awaiting s (set_tiles [] w) ∧
     ∀ queryResult,
       ∃ w',
         _updateGrid_resume (Resolved queryResult) (set_tiles [] w)
           = Fulfilled tt w' ∧
         w' = set_categoriesEnabled false (set_tiles (tiles w') w) ∧
         tile_name <$> tiles w' =
           filter (λ n, is_Some (_emojis w !! n))
                  ((λ entry, match entry with
                             | Native e => annotation e
                             | Custom _ => ""
                             end) <$> queryResult)).
Proof.
  split.
  - intros before group after Hshort Hgroups Htitle Hbefore.
    apply tooShort_spec in Hshort.
    rewrite updateGrid_browsing, Hgroups by done.
    rewrite (findGroup_first _ before after group Htitle Hbefore).
    eexists. split; [done|]. split; [done|]. apply tileOf_renders.
  - intros s Hq Hlen. split; [by apply updateGrid_searching|].
    intros queryResult. rewrite updateGrid_resume_resolved.
    eexists. split; [done|]. split; [done|].
    cbn [tiles set_tiles set_categoriesEnabled app].
    by rewrite searchTiles_names.
Qed.

Lemma updateGrid_length2_boundary_witness :
  let w := set_currentCategoryName "Gestures & People" Sample.loaded in
  let stale := set_tiles [createTile (Some "👻") "ghost"]
                 (set_categoriesEnabled false (set_searchQuery (Some "g") w)) in
  let searching := set_searchQuery (Some "wa") w in
  let people := {| title := "Gestures & People"; exampleEmoji := "👋";
                   items := [toEmojiItem Sample.wave] |} in
  (∃ w',
     _updateGrid stale = Finished (Fulfilled tt w') ∧
     w' = set_categoriesEnabled true (set_tiles (tiles w') stale) ∧
     Forall2 (λ item t,
                tile_name t = name item ∧
                rendersAt (_selectedSkinTone stale) (emojis item) (tile_emoji t))
             (items people) (tiles w')) ∧
  _updateGrid searching = Awaiting "wa" (set_tiles [] searching) ∧
  ∃ w',
    _updateGrid_resume (Resolved [Native Sample.wave; Native Sample.ghost])
                       (set_tiles [] searching)
      = Fulfilled tt w' ∧
    w' = set_categoriesEnabled false (set_tiles (tiles w') searching) ∧
    tile_name <$> tiles w' =
      filter (λ n, is_Some (_emojis searching !! n))
             ((λ entry, match entry with
                        | Native e => annotation e
                        | Custom _ => ""
                        end) <$> [Native Sample.wave; Native Sample.ghost]).
Proof.
  intros w stale searching people. split; [|split].
  - apply (proj1 (updateGrid_length2_boundary stale)
             (take 1 (_emojiGroups stale)) people (drop 2 (_emojiGroups stale))).
    + intros s [= <-]. simpl. lia.
    + by vm_compute.
    + reflexivity.
    + intros g Hg. vm_compute in Hg.
      apply list_elem_of_singleton in Hg. by subst g.
  - apply (proj2 (updateGrid_length2_boundary searching) "wa");
      [reflexivity | simpl; lia].
  - apply (proj2 (updateGrid_length2_boundary searching) "wa");
      [reflexivity | simpl; lia].
Defined.

Lemma searchTiles_glyphs (w : World) (queryResult : list QueriedEmoji) :
  Forall (λ t, ∃ em,
            _emojis w !! tile_name t = Some em ∧
            tile_emoji t =
              toneGlyph (_selectedSkinTone w) {| name := tile_name t; emojis := em |})
         (searchTiles w queryResult).
Proof.
  unfold searchTiles.
  induction queryResult as [|q l IH]; simpl; [constructor|].
  unfold resolveQueried at 1.
  destruct (_emojis w !! queriedName q) as [em|] eqn:E; simpl; [|done].
  constructor; [|done]. by exists em.
Qed.




(** C10.  In category browsing, [_updateGrid] is fulfilled only if some
    loaded group has the current category name as its title; when no group
    has, [find] yields nothing and [_updateGrid] throws a [TypeError]
    after having cleared the grid, and no caller handles it. *)
Theorem updateGrid_category_lookup_partial (w : World) :
  (∀ s, _searchQuery w = Some s → String.length s < 2) →
  (∀ w', _updateGrid w = Finished (Fulfilled tt w') →
         ∃ g, g ∈ _emojiGroups w ∧ title g = currentCategoryName w) ∧
  ((∀ g, g ∈ _emojiGroups w → title g ≠ currentCategoryName w) →
   findGroup (currentCategoryName w) (_emojiGroups w) = None ∧
   _updateGrid w = Finished (Threw TypeError (set_tiles [] w)) ∧
   ∀ b, unhandled (callUpdateGrid b w) = unhandled w ++ [TypeError]).
Proof.
  intros Hshort. apply tooShort_spec in Hshort.
  pose proof (updateGrid_browsing w Hshort) as Hupd. split.
  - intros w' Hw'. rewrite Hupd in Hw'.
    destruct (findGroup _ _) as [g|] eqn:E; [|done].
    exists g. by apply findGroup_Some.
  - intros Hno. apply findGroup_None in Hno. rewrite Hno in Hupd.
    split; [done|]. split; [done|].
    intros b. unfold callUpdateGrid. by rewrite Hupd.
Qed.

Lemma updateGrid_category_lookup_partial_witness :
  let w0 := Sample.loaded in
  let w := set_currentCategoryName "Flagz" Sample.loaded in
  (∃ g, g ∈ _emojiGroups w0 ∧ title g = currentCategoryName w0) ∧
  findGroup "Flagz" (_emojiGroups w) = None ∧
  _updateGrid w = Finished (Threw TypeError (set_tiles [] w)) ∧
  ∀ b, unhandled (callUpdateGrid b w) = unhandled w ++ [TypeError].
Proof.
  intros w0 w. split.
  - apply (proj1 (updateGrid_category_lookup_partial w0
                    ltac:(intros s; discriminate))
             (set_categoriesEnabled true
                (set_tiles [createTile (Some "😀") "grinning face"] w0))).
    vm_compute. reflexivity.
  - apply (proj2 (updateGrid_category_lookup_partial w
                    ltac:(intros s; discriminate))).
    intros g Hg. vm_compute in Hg.
    repeat (apply elem_of_cons in Hg as [->|Hg]; [discriminate|]).
    by apply elem_of_nil in Hg.
Defined.
End UpdateGrid.

(** ** Events: searches in flight, tone and category changes, activation *)

Section Events.
(** The tiles of a search result depend on the registry and on the
    selected tone only. *)
Lemma searchTiles_ext (w w' : World) (queryResult : list QueriedEmoji) :
  _emojis w = _emojis w' → _selectedSkinTone w = _selectedSkinTone w' →
  searchTiles w queryResult = searchTiles w' queryResult.
Proof.
  intros Hm Ht. unfold searchTiles. rewrite Ht. do 2 f_equal.
  apply list_fmap_ext. intros _ q _. unfold resolveQueried. by rewrite Hm.
Qed.

(** Issuing a search: the grid is cleared and the search is in flight. *)
Lemma callUpdateGrid_searching (b : bool) (w : World) (s : string) :
  _searchQuery w = Some s → 2 ≤ String.length s →
  callUpdateGrid b w =
    set_inflight (inflight w ++ [{| query := s; reposition := b |}])
                 (set_tiles [] w).
Proof.
  intros Hq Hlen. unfold callUpdateGrid.
  by rewrite (updateGrid_searching w s Hq Hlen).
Qed.

(** A browsing update leaves the plugin's registry, tone, query and
    database, and the searches in flight, as they are. *)
Lemma callUpdateGrid_browsing_frame (b : bool) (w : World) :
  tooShort (_searchQuery w) = true →
  let w' := callUpdateGrid b w in
  _emojis w' = _emojis w ∧ _selectedSkinTone w' = _selectedSkinTone w ∧
  _searchQuery w' = _searchQuery w ∧ _emojiDatabase w' = _emojiDatabase w ∧
  inflight w' = inflight w.
Proof.
  intros Hshort. unfold callUpdateGrid. rewrite (updateGrid_browsing w Hshort).
  destruct (findGroup _ _); destruct b; done.
Qed.

(** A search in flight settles with a result: its tiles are appended to
    whatever the grid holds then. *)
Lemma settle_resolved (w : World) (i : nat) (p : Pending)
    (queryResult : list QueriedEmoji) :
  inflight w !! i = Some p →
  getEmojiBySearchQuery (_emojiDatabase w) (query p) = Resolved queryResult →
  handle w (SearchSettles i) =
    afterUpdate (reposition p)
      (Fulfilled tt
         (set_categoriesEnabled false
            (set_tiles (tiles w ++ searchTiles w queryResult)
               (set_inflight (delete i (inflight w)) w)))).
Proof.
  intros Hp Hdb. unfold handle. rewrite Hp, Hdb.
  by rewrite updateGrid_resume_resolved.
Qed.


(** Two searches issued one after the other, both in flight. *)
Lemma two_searches_in_flight (w : World) (q1 q2 : string) :
  inflight w = [] → 2 ≤ String.length q1 → 2 ≤ String.length q2 →
  run w [SearchInput q1; SearchInput q2] =
    set_inflight [ {| query := q1; reposition := true |};
                   {| query := q2; reposition := true |} ]
                 (set_tiles [] (set_searchQuery (Some q2) w)).
Proof.
  intros Hin H1 H2. unfold run. cbn [foldl handle].
  rewrite (callUpdateGrid_searching true (set_searchQuery (Some q1) w) q1) by done.
  rewrite (callUpdateGrid_searching true _ q2) by done.
  simpl. by rewrite Hin.
Qed.

(** C1, as the code has it.  There is no check that a settling search is
    still the current one.  A search text shorter than 2 starts no search,
    so after such a text and then a text [q2] of length 2 or more the grid
    holds the tiles of the result for [q2] once the search settles.  When
    both texts have length 2 or more, both searches are in flight, and once
    both have settled the grid holds the tiles of both results, in the
    order of arrival. *)
Theorem overlapping_searches_append
    (w : World) (q2 : string) (r2 : list QueriedEmoji) :
  inflight w = [] →
  2 ≤ String.length q2 →
  getEmojiBySearchQuery (_emojiDatabase w) q2 = Resolved r2 →
  (∀ q1,
     String.length q1 < 2 →
     tiles (run w [SearchInput q1; SearchInput q2; SearchSettles 0])
       = searchTiles w r2) ∧
  (∀ q1 r1,
     2 ≤ String.length q1 →
     getEmojiBySearchQuery (_emojiDatabase w) q1 = Resolved r1 →
     tiles (run w [SearchInput q1; SearchInput q2; SearchSettles 0; SearchSettles 0])
       = searchTiles w r1 ++ searchTiles w r2 ∧
     tiles (run w [SearchInput q1; SearchInput q2; SearchSettles 1; SearchSettles 0])
       = searchTiles w r2 ++ searchTiles w r1).
Proof.
  intros Hin H2 Hdb2. split.
  - intros q1 H1. unfold run. cbn [foldl].
    set (w1 := handle w (SearchInput q1)).
    assert (tooShort (_searchQuery (set_searchQuery (Some q1) w)) = true) as Hs.
    { apply tooShort_spec. by intros s [= <-]. }
    destruct (callUpdateGrid_browsing_frame true _ Hs) as (Hm & Ht & _ & Hd & Hi).
    fold (handle w (SearchInput q1)) in Hm, Ht, Hd, Hi. fold w1 in Hm, Ht, Hd, Hi.
    simpl in Hm, Ht, Hd, Hi.
    unfold handle at 2. rewrite (callUpdateGrid_searching true _ q2) by done.
    erewrite settle_resolved; cycle 1.
    { simpl. rewrite Hi, Hin. reflexivity. }
    { simpl. rewrite Hd. exact Hdb2. }
    simpl. by apply searchTiles_ext.
  - intros q1 r1 H1 Hdb1.
    pose proof (two_searches_in_flight w q1 q2 Hin H1 H2) as Hrun.
    split.
    + change (run w [SearchInput q1; SearchInput q2; SearchSettles 0; SearchSettles 0])
        with (handle (handle (run w [SearchInput q1; SearchInput q2])
                             (SearchSettles 0)) (SearchSettles 0)).
      rewrite Hrun.
      rewrite (settle_resolved
                 (set_inflight [ {| query := q1; reposition := true |};
                                 {| query := q2; reposition := true |} ]
                    (set_tiles [] (set_searchQuery (Some q2) w)))
                 0 {| query := q1; reposition := true |} r1 eq_refl Hdb1).
      cbn [afterUpdate reposition].
      erewrite (settle_resolved _ 0 {| query := q2; reposition := true |} r2);
        [reflexivity | reflexivity | exact Hdb2].
    + change (run w [SearchInput q1; SearchInput q2; SearchSettles 1; SearchSettles 0])
        with (handle (handle (run w [SearchInput q1; SearchInput q2])
                             (SearchSettles 1)) (SearchSettles 0)).
      rewrite Hrun.
      rewrite (settle_resolved
                 (set_inflight [ {| query := q1; reposition := true |};
                                 {| query := q2; reposition := true |} ]
                    (set_tiles [] (set_searchQuery (Some q2) w)))
                 1 {| query := q2; reposition := true |} r2 eq_refl Hdb2).
      cbn [afterUpdate reposition].
      erewrite (settle_resolved _ 0 {| query := q1; reposition := true |} r1);
        [reflexivity | reflexivity | exact Hdb1].
Qed.

Lemma overlapping_searches_append_witness :
  let w := Sample.loaded in
  tiles (run w [SearchInput "a"; SearchInput "wa"; SearchSettles 0])
    = [createTile (Some "👋") "waving hand"] ∧
  tiles (run w [SearchInput "gr"; SearchInput "wa"; SearchSettles 0; SearchSettles 0])
    = [createTile (Some "😀") "grinning face"; createTile (Some "👋") "waving hand"] ∧
  tiles (run w [SearchInput "gr"; SearchInput "wa"; SearchSettles 1; SearchSettles 0])
    = [createTile (Some "👋") "waving hand"; createTile (Some "😀") "grinning face"].
Proof.
  intros w.
  assert (inflight w = []) as Hin by reflexivity.
  assert (2 ≤ String.length "wa") as H2 by (simpl; lia).
  assert (getEmojiBySearchQuery (_emojiDatabase w) "wa"
          = Resolved [Native Sample.wave; Native Sample.ghost]) as Hdb by reflexivity.
  destruct (overlapping_searches_append w "wa" _ Hin H2 Hdb) as [Ha Hb].
  split.
  - apply (Ha "a"). simpl. lia.
  - apply (Hb "gr" [Native Sample.grinning]); [simpl; lia | reflexivity].
Defined.

(** C1, as the specification states it, fails: the search for ["gr"] is
    superseded by the search for ["gri"], which finds nothing; once both
    have settled, in either order, the grid holds the tiles of ["gr"]. *)
Lemma superseded_search_result_stays :
  let older := tiles (run Sample.loaded [SearchInput "gr"; SearchSettles 0]) in
  let newer := tiles (run Sample.loaded [SearchInput "gri"; SearchSettles 0]) in
  older = [createTile (Some "😀") "grinning face"] ∧
  newer = [] ∧
  tiles (run Sample.loaded
           [SearchInput "gr"; SearchInput "gri"; SearchSettles 0; SearchSettles 0])
    = older ∧
  tiles (run Sample.loaded
           [SearchInput "gr"; SearchInput "gri"; SearchSettles 1; SearchSettles 0])
    = older.
Proof. vm_compute. done. Qed.

(** C8, as the code has it.  While a search text of length 2 or more is
    set and no search is in flight, a tone change is stored and applied:
    the grid is cleared, the search is issued again, and when it settles
    its result is rendered at the new tone.  A category change is stored
    and issues the search again as well; the tiles it ends with are those
    of the search result, whatever the category. *)
Theorem tone_change_rerenders_search
    (w : World) (s : string) (queryResult : list QueriedEmoji) :
  _searchQuery w = Some s → 2 ≤ String.length s →
  inflight w = [] →
  getEmojiBySearchQuery (_emojiDatabase w) s = Resolved queryResult →
  (∀ k,
     tiles (handle w (ToneChange k)) = [] ∧
     let w' := run w [ToneChange k; SearchSettles 0] in
     _selectedSkinTone w' = k ∧
     tiles w' = tileOf k <$> filterBoolean (resolveQueried w <$> queryResult)) ∧
  (∀ n,
     tiles (handle w (CategoryChange n)) = [] ∧
     let w' := run w [CategoryChange n; SearchSettles 0] in
     currentCategoryName w' = n ∧
     categoriesEnabled w' = false ∧
     tiles w' = searchTiles w queryResult).
Proof.
  intros Hq Hlen Hin Hdb. split.
  - intros k.
    assert (handle w (ToneChange k) =
            set_inflight [{| query := s; reposition := false |}]
              (set_tiles [] (set_selectedSkinTone k w))) as Hstep.
    { unfold handle. rewrite (callUpdateGrid_searching false _ s) by done.
      simpl. by rewrite Hin. }
    split; [by rewrite Hstep|].
    unfold run. cbn [foldl]. rewrite Hstep.
    erewrite (settle_resolved _ 0 {| query := s; reposition := false |} queryResult);
      [done | reflexivity | exact Hdb].
  - intros n.
    assert (handle w (CategoryChange n) =
            set_inflight [{| query := s; reposition := false |}]
              (set_tiles [] (set_currentCategoryName n w))) as Hstep.
    { unfold handle. rewrite (callUpdateGrid_searching false _ s) by done.
      simpl. by rewrite Hin. }
    split; [by rewrite Hstep|].
    unfold run. cbn [foldl]. rewrite Hstep.
    erewrite (settle_resolved _ 0 {| query := s; reposition := false |} queryResult);
      [done | reflexivity | exact Hdb].
Qed.

Lemma tone_change_rerenders_search_witness :
  let w := run Sample.loaded [SearchInput "wa"; SearchSettles 0] in
  (tiles (handle w (ToneChange 3)) = [] ∧
   let w' := run w [ToneChange 3; SearchSettles 0] in
   _selectedSkinTone w' = 3 ∧
   tiles w' = [createTile (Some "👋🏽") "waving hand"]) ∧
  (tiles (handle w (CategoryChange "Flags")) = [] ∧
   let w' := run w [CategoryChange "Flags"; SearchSettles 0] in
   currentCategoryName w' = "Flags" ∧
   categoriesEnabled w' = false ∧
   tiles w' = [createTile (Some "👋") "waving hand"]).
Proof.
  intros w.
  assert (_searchQuery w = Some "wa") as Hq by reflexivity.
  assert (2 ≤ String.length "wa") as Hlen by (simpl; lia).
  assert (inflight w = []) as Hin by reflexivity.
  assert (getEmojiBySearchQuery (_emojiDatabase w) "wa"
          = Resolved [Native Sample.wave; Native Sample.ghost]) as Hdb by reflexivity.
  destruct (tone_change_rerenders_search w "wa" _ Hq Hlen Hin Hdb) as [Ht Hc].
  split; [apply (Ht 3) | apply (Hc "Flags")].
Defined.

(** C8, as the specification states it, fails: with the result of ["wa"]
    on the grid, selecting tone 1 changes the tile. *)
Lemma tone_change_changes_search_tiles :
  let w := run Sample.loaded [SearchInput "wa"; SearchSettles 0] in
  tiles w = [createTile (Some "👋") "waving hand"] ∧
  tiles (run w [ToneChange 1; SearchSettles 0])
    = [createTile (Some "👋🏻") "waving hand"] ∧
  tiles (run w [ToneChange 1; SearchSettles 0]) ≠ tiles w.
Proof. vm_compute. done. Qed.

(** C3, as the code has it.  The handler of the grid's [execute] event
    looks nothing up: whatever the name in the event, known to the
    registry or not, it inserts the glyph of the event into the document,
    hides the picker and empties the search text, and raises nothing. *)
Theorem execute_inserts_unconditionally (w : World) (data : ExecuteData) :
  let w' := handle w (GridExecute data) in
  inserted w' = inserted w ++ [data_emoji data] ∧
  shown w' = false ∧
  _searchQuery w' = Some "" ∧
  unhandled w' = unhandled w ∧
  tiles w' = tiles w ∧
  _emojis w' = _emojis w.
Proof. done. Qed.

(** C3, as the specification states it, fails: ["mystery"] is no key of
    the registry and names no tile of the grid, and activating it inserts
    its glyph. *)
Lemma execute_unknown_name_inserts :
  let w := handle Sample.loaded (SearchInput "") in
  let data := {| data_name := "mystery"; data_emoji := "❓" |} in
  _emojis w !! "mystery" = None ∧
  ("mystery" ∉ (tile_name <$> tiles w)) ∧
  inserted w = [] ∧
  inserted (handle w (GridExecute data)) = ["❓"].
Proof.
  split; [by vm_compute|]. split; [|done].
  vm_compute. intros H. apply list_elem_of_singleton in H. discriminate.
Qed.
End Events.

(** ** The mention feed *)

Section MentionFeedProperties.
Variable formatEmojiId : string → string.
Variable getShowAllEmojiId : string.
Variable toLocaleLowerCase : string → string.

(** Keeping the entries whose index is below a bound keeps a prefix. *)
Lemma filterIndexed_below {A} (bound : Z) (index : nat) (l : list A) :
  filterIndexed (λ _ i, (Z.of_nat i <? bound)%Z) index l
  = take (Z.to_nat bound - index) l.
Proof.
  revert index. induction l as [|x l IH]; intros index; simpl.
  - by rewrite take_nil.
  - rewrite IH. destruct (Z.ltb_spec (Z.of_nat index) bound) as [Hlt|Hge].
    + replace (Z.to_nat bound - index) with (S (Z.to_nat bound - S index)) by lia.
      done.
    + replace (Z.to_nat bound - index) with 0 by lia.
      replace (Z.to_nat bound - S index) with 0 by lia.
      by rewrite take_0.
Qed.

Lemma feedItems_natives (natives : list NativeEmoji) :
  feedItems formatEmojiId toLocaleLowerCase (Native <$> natives)
  = Resolved (feedItem formatEmojiId toLocaleLowerCase <$> natives).
Proof.
  induction natives as [|e l IH]; [done|].
  rewrite !fmap_cons. cbn [feedItems]. by rewrite IH.
Qed.

End MentionFeedProperties.


(** ** The registry and the groups: [_getEmojiGroup] and [init] *)

Section Registry.
(** The registry after [databaseGroup.map]: the glyphs of the last item of
    a name, and what was there before under the other names. *)
Lemma registerItems_snd_lookup (l : list NativeEmoji)
    (m : gmap string (list string)) (n : string) :
  (registerItems m l).2 !! n =
    match last (filter (λ item, annotation item = n) l) with
    | Some item => Some (emojisOf item)
    | None => m !! n
    end.
Proof.
  revert m. induction l as [|item l IH]; intros m; [done|].
  cbn [registerItems]. specialize (IH (<[name (toEmojiItem item) := emojis (toEmojiItem item)]> m)).
  destruct (registerItems _ l) as [its m'] eqn:E. cbn [snd] in *.
  rewrite IH, filter_cons. cbn [toEmojiItem name emojis].
  destruct (decide (annotation item = n)) as [Hn|Hn].
  - destruct (filter _ l) as [|x f].
    + cbn [last]. subst n. by rewrite lookup_insert_eq.
    + change (last (item :: x :: f)) with (last (x :: f)).
      destruct (last (x :: f)) eqn:El; [done|]. by apply last_None in El.
  - destruct (last _); [done|]. by rewrite lookup_insert_ne.
Qed.

Lemma last_filter_None {A} (P : A → Prop) `{!∀ x, Decision (P x)} (l : list A) :
  last (filter P l) = None ↔ ∀ x, x ∈ l → ¬ P x.
Proof.
  rewrite last_None. split.
  - intros Hnil x Hx HP.
    assert (x ∈ filter P l) as Hin by (by apply list_elem_of_filter).
    rewrite Hnil in Hin. by apply elem_of_nil in Hin.
  - intros Hall. apply elem_of_nil_inv. intros x Hx.
    apply list_elem_of_filter in Hx as [HP Hx]. by apply (Hall x).
Qed.

Lemma last_filter_NoDup (l : list NativeEmoji) (item : NativeEmoji) :
  NoDup (annotation <$> l) → item ∈ l →
  last (filter (λ x, annotation x = annotation item) l) = Some item.
Proof.
  induction l as [|x l IH]; intros Hnd Hin; [by apply elem_of_nil in Hin|].
  rewrite fmap_cons in Hnd. apply NoDup_cons in Hnd as [Hx Hnd].
  rewrite filter_cons. apply elem_of_cons in Hin as [->|Hin].
  - rewrite decide_True by done.
    assert (filter (λ y, annotation y = annotation x) l = []) as ->; [|done].
    apply elem_of_nil_inv. intros y Hy.
    apply list_elem_of_filter in Hy as [Heq Hy]. apply Hx.
    rewrite <- Heq. by apply list_elem_of_fmap_2.
  - rewrite decide_False.
    + by apply IH.
    + intros Heq. apply Hx. rewrite Heq. by apply list_elem_of_fmap_2.
Qed.

(** X1.  A group load that resolves registers every record it returns
    under the record's name; where the names of the database's items are
    distinct the entry holds the record's glyphs; where two items share a
    name the entry holds the glyphs of the later one.  Names the group does
    not have keep their entry, and nothing but the registry changes. *)
Theorem getEmojiGroup_registers
    (databaseId : Z) (title0 exampleEmoji0 : string) (w : World)
    (databaseGroup : list NativeEmoji) :
  getEmojiByGroup (_emojiDatabase w) databaseId = Resolved databaseGroup →
  ∃ g m,
    _getEmojiGroup databaseId title0 exampleEmoji0 w = Fulfilled g (set_emojis m w) ∧
    items g = toEmojiItem <$> databaseGroup ∧
    (∀ r, r ∈ items g → is_Some (m !! name r)) ∧
    (NoDup (annotation <$> databaseGroup) →
     ∀ r, r ∈ items g → m !! name r = Some (emojis r)) ∧
    (∀ n, m !! n =
          match last (filter (λ item, annotation item = n) databaseGroup) with
          | Some item => Some (emojisOf item)
          | None => _emojis w !! n
          end).
Proof.
  intros Hdb. unfold _getEmojiGroup. rewrite Hdb.
  pose proof (registerItems_fst databaseGroup (_emojis w)) as Hfst.
  pose proof (registerItems_snd_lookup databaseGroup (_emojis w)) as Hsnd.
  destruct (registerItems _ databaseGroup) as [its m]. cbn [fst snd] in *. subst its.
  eexists _, m. split; [done|]. cbn [items]. split; [done|].
  split; [|split; [|done]].
  - intros r Hr. apply list_elem_of_fmap in Hr as (item & -> & Hitem).
    rewrite Hsnd. cbn [toEmojiItem name].
    destruct (last _) eqn:El; [by eexists|].
    exfalso. by apply (proj1 (last_filter_None _ _) El item).
  - intros Hnd r Hr. apply list_elem_of_fmap in Hr as (item & -> & Hitem).
    rewrite Hsnd. cbn [toEmojiItem name emojis].
    by rewrite (last_filter_NoDup _ _ Hnd Hitem).
Qed.

Lemma getEmojiGroup_registers_witness :
  ∃ g m,
    _getEmojiGroup 1 "Gestures & People" "👋" (Sample.fresh Sample.db)
      = Fulfilled g (set_emojis m (Sample.fresh Sample.db)) ∧
    items g = toEmojiItem <$> [Sample.wave] ∧
    (∀ r, r ∈ items g → is_Some (m !! name r)) ∧
    (NoDup (annotation <$> [Sample.wave]) →
     ∀ r, r ∈ items g → m !! name r = Some (emojis r)) ∧
    (∀ n, m !! n =
          match last (filter (λ item, annotation item = n) [Sample.wave]) with
          | Some item => Some (emojisOf item)
          | None => _emojis (Sample.fresh Sample.db) !! n
          end).
Proof.
  apply (getEmojiGroup_registers 1 "Gestures & People" "👋"
           (Sample.fresh Sample.db) [Sample.wave]).
  reflexivity.
Defined.
End Registry.

Section Init.
Lemma registerItems_nonEmpty (l : list NativeEmoji) (m : gmap string (list string)) :
  registryNonEmpty m → registryNonEmpty (registerItems m l).2.
Proof.
  intros Hm n em. rewrite registerItems_snd_lookup.
  destruct (last _) as [item|]; [|by apply Hm]. by intros [= <-].
Qed.

Lemma registerItems_mono (l : list NativeEmoji) (m : gmap string (list string))
    (n : string) :
  is_Some (m !! n) → is_Some ((registerItems m l).2 !! n).
Proof.
  intros Hn. rewrite registerItems_snd_lookup. by destruct (last _).
Qed.

Lemma registerItems_registered (l : list NativeEmoji) (m : gmap string (list string))
    (item : NativeEmoji) :
  item ∈ l → is_Some ((registerItems m l).2 !! annotation item).
Proof.
  intros Hin. rewrite registerItems_snd_lookup.
  destruct (last _) eqn:El; [by eexists|].
  exfalso. by apply (proj1 (last_filter_None _ _) El item).
Qed.

Lemma set_emojis_same (w : World) : set_emojis (_emojis w) w = w.
Proof. by destruct w. Qed.

(** The loads of [init] when every one of them resolves. *)
Lemma loadGroups_resolved (cfgs : list (Z * string * string))
    (data : Z → list NativeEmoji) (w : World) :
  (∀ cfg, cfg ∈ cfgs →
     getEmojiByGroup (_emojiDatabase w) cfg.1.1 = Resolved (data cfg.1.1)) →
  ∃ m,
    loadGroups cfgs w = Fulfilled (groupOf data <$> cfgs) (set_emojis m w) ∧
    (registryNonEmpty (_emojis w) → registryNonEmpty m) ∧
    (∀ n, is_Some (_emojis w !! n) → is_Some (m !! n)) ∧
    (∀ g item, g ∈ groupOf data <$> cfgs → item ∈ items g →
               is_Some (m !! name item)).
Proof.
  revert w. induction cfgs as [|[[databaseId title0] exampleEmoji0] cfgs IH];
    intros w Hdb.
  - exists (_emojis w). cbn [loadGroups fmap list_fmap].
    rewrite set_emojis_same. split; [done|]. split; [done|]. split; [done|].
    intros g item Hg. by apply elem_of_nil in Hg.
  - cbn [loadGroups]. unfold _getEmojiGroup.
    pose proof (Hdb (databaseId, title0, exampleEmoji0) (list_elem_of_here _ _))
      as Hhd.
    cbn [fst] in Hhd. rewrite Hhd.
    pose proof (registerItems_fst (data databaseId) (_emojis w)) as Hfst.
    pose proof (registerItems_nonEmpty (data databaseId) (_emojis w)) as Hne.
    pose proof (registerItems_mono (data databaseId) (_emojis w)) as Hmono.
    pose proof (registerItems_registered (data databaseId) (_emojis w)) as Hreg.
    destruct (registerItems _ (data databaseId)) as [its m1].
    cbn [fst snd] in *. subst its.
    destruct (IH (set_emojis m1 w)) as (m & Hload & Hne' & Hmono' & Hreg').
    { intros cfg Hcfg. apply Hdb. by apply list_elem_of_further. }
    exists m. rewrite Hload. split; [done|]. cbn [_emojis set_emojis] in *.
    split; [by intros; apply Hne', Hne|].
    split; [by intros; apply Hmono', Hmono|].
    intros g item Hg Hitem. rewrite fmap_cons in Hg.
    apply elem_of_cons in Hg as [->|Hg]; [|by apply (Hreg' g)].
    cbn [groupOf items] in Hitem.
    apply list_elem_of_fmap in Hitem as (x & -> & Hx).
    apply Hmono'. by apply Hreg.
Qed.

(** Whatever the loads of [init] end with, only the registry has changed. *)
Lemma loadGroups_world (cfgs : list (Z * string * string)) (w : World) :
  ∃ m, world_of (loadGroups cfgs w) = set_emojis m w.
Proof.
  revert w. induction cfgs as [|[[databaseId title0] exampleEmoji0] cfgs IH];
    intros w.
  - exists (_emojis w). cbn. by rewrite set_emojis_same.
  - cbn [loadGroups]. unfold _getEmojiGroup.
    destruct (getEmojiByGroup (_emojiDatabase w) databaseId) as [l|e].
    + destruct (registerItems (_emojis w) l) as [its m1].
      destruct (IH (set_emojis m1 w)) as [m Hm]. exists m.
      by destruct (loadGroups cfgs (set_emojis m1 w)).
    + destruct (IH w) as [m Hm]. exists m. by cbn [world_of].
Qed.

(** When one of the loads rejects, so do all of them together, with the
    error of a load that rejected. *)
Lemma loadGroups_rejected (cfgs : list (Z * string * string)) (w : World)
    (cfg : Z * string * string) (e : Error) :
  cfg ∈ cfgs →
  getEmojiByGroup (_emojiDatabase w) cfg.1.1 = Rejected e →
  ∃ e' cfg' w',
    loadGroups cfgs w = Threw e' w' ∧ cfg' ∈ cfgs ∧
    getEmojiByGroup (_emojiDatabase w) cfg'.1.1 = Rejected e'.
Proof.
  revert w. induction cfgs as [|[[databaseId title0] exampleEmoji0] cfgs IH];
    intros w Hcfg Hrej; [by apply elem_of_nil in Hcfg|].
  cbn [loadGroups]. unfold _getEmojiGroup.
  destruct (getEmojiByGroup (_emojiDatabase w) databaseId) as [l|e0] eqn:Hdb.
  - destruct (registerItems (_emojis w) l) as [its m1].
    apply elem_of_cons in Hcfg as [->|Hcfg].
    { cbn [fst] in Hrej. congruence. }
    destruct (IH (set_emojis m1 w) Hcfg Hrej) as (e' & cfg' & w' & Hload & Hin & He').
    exists e', cfg', w'. rewrite Hload.
    split; [done|]. split; [by apply list_elem_of_further | done].
  - exists e0, (databaseId, title0, exampleEmoji0), (world_of (loadGroups cfgs w)).
    split; [done|]. split; [apply list_elem_of_here | done].
Qed.

(** X2.  When the database resolves the nine group loads, [init] is
    fulfilled and sets the nine groups, in the order and with the titles of
    its list, each holding the records of the database's items for its id,
    in the database's order; nothing else but the registry changes. *)
Theorem init_sets_groups (w : World) (data : Z → list NativeEmoji) :
  (∀ cfg, cfg ∈ groupConfigs →
     getEmojiByGroup (_emojiDatabase w) cfg.1.1 = Resolved (data cfg.1.1)) →
  ∃ m,
    init w = Fulfilled tt
               (set_emojiGroups (groupOf data <$> groupConfigs) (set_emojis m w)) ∧
    title <$> (groupOf data <$> groupConfigs) =
      [ "Smileys & Expressions"; "Gestures & People"; "Animals & Nature";
        "Food & Drinks"; "Travel & Places"; "Activities"; "Objects";
        "Symbols"; "Flags" ].
Proof.
  intros Hdb. destruct (loadGroups_resolved groupConfigs data w Hdb) as (m & Hload & _).
  exists m. unfold init. rewrite Hload. done.
Qed.

Lemma init_sets_groups_witness :
  ∃ m,
    init (Sample.fresh Sample.db) =
      Fulfilled tt
        (set_emojiGroups
           (groupOf (λ databaseId,
                       if (databaseId =? 0)%Z then [Sample.grinning]
                       else if (databaseId =? 1)%Z then [Sample.wave] else [])
              <$> groupConfigs)
           (set_emojis m (Sample.fresh Sample.db))) ∧
    title <$> (groupOf (λ databaseId,
                       if (databaseId =? 0)%Z then [Sample.grinning]
                       else if (databaseId =? 1)%Z then [Sample.wave] else [])
              <$> groupConfigs) =
      [ "Smileys & Expressions"; "Gestures & People"; "Animals & Nature";
        "Food & Drinks"; "Travel & Places"; "Activities"; "Objects";
        "Symbols"; "Flags" ].
Proof.
  apply (init_sets_groups (Sample.fresh Sample.db)).
  intros cfg Hcfg. cbn [Sample.fresh _emojiDatabase Sample.db getEmojiByGroup].
  destruct (cfg.1.1 =? 0)%Z; [done|]. by destruct (cfg.1.1 =? 1)%Z.
Defined.

(** X3.  When the database rejects one of the nine group loads, [init] is
    rejected with the error of a load that was rejected, and [_emojiGroups]
    stays as it was: the picker has no group, although the records of the
    loads that resolved are in the registry. *)
Theorem init_rejects (w : World) (cfg : Z * string * string) (e : Error) :
  cfg ∈ groupConfigs →
  getEmojiByGroup (_emojiDatabase w) cfg.1.1 = Rejected e →
  ∃ e' cfg' m,
    init w = Threw e' (set_emojis m w) ∧
    cfg' ∈ groupConfigs ∧
    getEmojiByGroup (_emojiDatabase w) cfg'.1.1 = Rejected e'.
Proof.
  intros Hcfg Hrej.
  destruct (loadGroups_rejected groupConfigs w cfg e Hcfg Hrej)
    as (e' & cfg' & w' & Hload & Hin & He').
  destruct (loadGroups_world groupConfigs w) as [m Hm].
  rewrite Hload in Hm. cbn [world_of] in Hm. subst w'.
  exists e', cfg', m. unfold init. by rewrite Hload.
Qed.

Lemma init_rejects_witness :
  ∃ e' cfg' m,
    init (Sample.fresh Sample.brokenDb)
      = Threw e' (set_emojis m (Sample.fresh Sample.brokenDb)) ∧
    cfg' ∈ groupConfigs ∧
    getEmojiByGroup (_emojiDatabase (Sample.fresh Sample.brokenDb)) cfg'.1.1
      = Rejected e'.
Proof.
  apply (init_rejects (Sample.fresh Sample.brokenDb)
           (3%Z, "Animals & Nature", "🐻") DataUnavailable).
  - unfold groupConfigs. do 2 apply list_elem_of_further. apply list_elem_of_here.
  - reflexivity.
Defined.
End Init.

(** ** Failures of the database *)

Section DatabaseFailure.


End DatabaseFailure.

(** ** What every run of the picker keeps *)

Section Runs.
(** What a call of [_updateGrid] from a handler leaves untouched, and the
    grids it can leave: empty, or the items of a loaded group. *)
Lemma callUpdateGrid_effects (b : bool) (w : World) :
  let w' := callUpdateGrid b w in
  _emojis w' = _emojis w ∧ _emojiGroups w' = _emojiGroups w ∧
  _emojiDatabase w' = _emojiDatabase w ∧ inserted w' = inserted w ∧
  _selectedSkinTone w' = _selectedSkinTone w ∧
  (tiles w' = [] ∨
   ∃ g, g ∈ _emojiGroups w ∧ tiles w' = tileOf (_selectedSkinTone w) <$> items g) ∧
  (unhandled w' = unhandled w ∨ unhandled w' = unhandled w ++ [TypeError]).
Proof.
  unfold callUpdateGrid, _updateGrid, _getEmojisForCategory.
  cbn [_searchQuery set_tiles currentCategoryName _emojiGroups].
  destruct (tooShort (_searchQuery w)).
  - destruct (findGroup _ _) as [g|] eqn:Hfind.
    + rewrite addTilesToGrid_eq. apply findGroup_Some in Hfind as [Hg _].
      destruct b; cbn; repeat split; eauto.
    + cbn. repeat split; eauto.
  - cbn. repeat split; eauto.
Qed.

Lemma handle_frame (w : World) (ev : Event) :
  _emojis (handle w ev) = _emojis w ∧
  _emojiGroups (handle w ev) = _emojiGroups w ∧
  _emojiDatabase (handle w ev) = _emojiDatabase w.
Proof.
  destruct ev as [value|newName|newValue|data|i]; cbn [handle].
  - by destruct (callUpdateGrid_effects true (set_searchQuery (Some value) w))
      as (? & ? & ? & _).
  - by destruct (callUpdateGrid_effects false (set_currentCategoryName newName w))
      as (? & ? & ? & _).
  - by destruct (callUpdateGrid_effects false (set_selectedSkinTone newValue w))
      as (? & ? & ? & _).
  - done.
  - destruct (inflight w !! i) as [p|]; [|done].
    destruct (getEmojiBySearchQuery _ _) as [r|e].
    + rewrite updateGrid_resume_resolved. by destruct (reposition p).
    + done.
Qed.

(** X4.  No event changes the registry, the groups or the database of the
    picker: after [init] they are read only. *)
Theorem run_keeps_catalog (w : World) (evs : list Event) :
  _emojis (run w evs) = _emojis w ∧
  _emojiGroups (run w evs) = _emojiGroups w ∧
  _emojiDatabase (run w evs) = _emojiDatabase w.
Proof.
  unfold run. revert w. induction evs as [|ev evs IH]; intros w; [done|].
  cbn [foldl]. destruct (IH (handle w ev)) as (-> & -> & ->).
  apply handle_frame.
Qed.

Lemma toneGlyph_is_Some (k : nat) (item : EmojiItem) :
  emojis item ≠ [] → is_Some (toneGlyph k item).
Proof.
  intros Hne. unfold toneGlyph.
  destruct (emojis item) as [|e l] eqn:E; [done|].
  destruct ((e :: l) !! k) as [g|]; [|by eexists].
  destruct (truthy g); by eexists.
Qed.

Lemma searchTiles_resolved (w : World) (queryResult : list QueriedEmoji) :
  registryNonEmpty (_emojis w) →
  Forall (tileResolved w) (searchTiles w queryResult).
Proof.
  intros Hne. eapply Forall_impl; [apply searchTiles_glyphs|].
  intros t (em & Hem & Hglyph). split; [|by eexists].
  rewrite Hglyph. apply toneGlyph_is_Some. cbn. by apply (Hne (tile_name t)).
Qed.

Lemma tileResolved_ext (w w' : World) (t : Tile) :
  _emojis w' = _emojis w → tileResolved w t → tileResolved w' t.
Proof. unfold tileResolved. by intros ->. Qed.

(** Every handler keeps the invariant of the picker. *)
Lemma handle_invariant (w : World) (ev : Event) :
  pickerInvariant w → pickerInvariant (handle w ev).
Proof.
  intros (Hreg & Hgroups & Htiles).
  destruct (handle_frame w ev) as (Hm & Hg & _).
  split; [by rewrite Hm|]. split.
  { unfold groupsRegistered. rewrite Hm, Hg. exact Hgroups. }
  apply Forall_forall. intros t Ht. apply (tileResolved_ext w); [done|].
  assert (∀ b w1, _emojis w1 = _emojis w → _emojiGroups w1 = _emojiGroups w →
                  t ∈ tiles (callUpdateGrid b w1) → tileResolved w t) as Hcall.
  { intros b w1 Hm1 Hg1 Hin.
    destruct (callUpdateGrid_effects b w1) as (_ & _ & _ & _ & _ & [Hnil|(g & Hgin & Hgt)] & _).
    - rewrite Hnil in Hin. by apply elem_of_nil in Hin.
    - rewrite Hgt in Hin. apply list_elem_of_fmap in Hin as (item & -> & Hitem).
      rewrite Hg1 in Hgin. destruct (Hgroups g item Hgin Hitem) as [Hne Hsome].
      split; [by apply toneGlyph_is_Some | done]. }
  destruct ev as [value|newName|newValue|data|i]; cbn [handle] in Ht.
  - by apply (Hcall true (set_searchQuery (Some value) w)).
  - by apply (Hcall false (set_currentCategoryName newName w)).
  - by apply (Hcall false (set_selectedSkinTone newValue w)).
  - by apply (proj1 (Forall_forall _ _) Htiles).
  - destruct (inflight w !! i) as [p|]; [|by apply (proj1 (Forall_forall _ _) Htiles)].
    destruct (getEmojiBySearchQuery _ _) as [r|e].
    + rewrite updateGrid_resume_resolved in Ht.
      assert (t ∈ tiles w ++ searchTiles w r) as Hin by (by destruct (reposition p)).
      apply elem_of_app in Hin as [Hin|Hin].
      * by apply (proj1 (Forall_forall _ _) Htiles).
      * by apply (proj1 (Forall_forall _ _) (searchTiles_resolved w r Hreg)).
    + by apply (proj1 (Forall_forall _ _) Htiles).
Qed.

Lemma run_emojis (w : World) (evs : list Event) :
  _emojis (run w evs) = _emojis w.
Proof.
  unfold run. revert w. induction evs as [|ev evs IH]; intros w; [done|].
  cbn [foldl]. rewrite IH. apply handle_frame.
Qed.

Lemma run_invariant (w : World) (evs : list Event) :
  pickerInvariant w → pickerInvariant (run w evs).
Proof.
  unfold run. revert w. induction evs as [|ev evs IH]; intros w Hw; [done|].
  cbn [foldl]. by apply IH, handle_invariant.
Qed.

(** The loads of [init], when fulfilled, leave a registry without empty
    entries in which every item of every group is registered. *)
Lemma loadGroups_invariant (cfgs : list (Z * string * string))
    (w0 w1 : World) (gs : list EmojiGroup) :
  loadGroups cfgs w0 = Fulfilled gs w1 →
  registryNonEmpty (_emojis w0) →
  registryNonEmpty (_emojis w1) ∧
  (∀ g item, g ∈ gs → item ∈ items g →
             emojis item ≠ [] ∧ is_Some (_emojis w1 !! name item)) ∧
  tiles w1 = tiles w0.
Proof.
  intros Hload Hne0.
  assert (∃ data, ∀ cfg, cfg ∈ cfgs →
            getEmojiByGroup (_emojiDatabase w0) cfg.1.1 = Resolved (data cfg.1.1))
    as [data Hdata].
  { exists (λ databaseId,
              match getEmojiByGroup (_emojiDatabase w0) databaseId with
              | Resolved l => l
              | Rejected _ => []
              end).
    intros cfg Hcfg.
    destruct (getEmojiByGroup (_emojiDatabase w0) cfg.1.1) as [l|e] eqn:Hdb; [done|].
    destruct (loadGroups_rejected cfgs w0 cfg e Hcfg Hdb)
      as (e' & cfg' & w' & Hrej & _).
    congruence. }
  destruct (loadGroups_resolved cfgs data w0 Hdata)
    as (m & Hres & Hne & _ & Hreg).
  rewrite Hres in Hload. injection Hload as <- <-.
  split; [by apply Hne|]. split; [|done].
  intros g item Hg Hitem. split; [|by apply (Hreg g)].
  apply list_elem_of_fmap in Hg as ([[databaseId title0] exampleEmoji0] & -> & _).
  cbn [groupOf items] in Hitem.
  by apply list_elem_of_fmap in Hitem as (x & -> & _).
Qed.

(** [init] establishes the invariant from the picker of the constructor. *)
Lemma init_invariant (w0 w : World) :
  _emojis w0 = ∅ → tiles w0 = [] → init w0 = Fulfilled tt w → pickerInvariant w.
Proof.
  intros Hempty Htiles Hinit. unfold init in Hinit.
  destruct (loadGroups groupConfigs w0) as [gs w1|e w1] eqn:Hload; [|done].
  injection Hinit as <-.
  destruct (loadGroups_invariant groupConfigs w0 w1 gs Hload) as (Hne & Hreg & Ht).
  { rewrite Hempty. intros n em Hn. by rewrite lookup_empty in Hn. }
  split; [done|]. split; [exact Hreg|].
  cbn [tiles set_emojiGroups]. rewrite Ht, Htiles. constructor.
Qed.

(** X5.  From the picker of the constructor, once [init] is fulfilled,
    whatever events follow, every tile of the grid has a glyph (none is
    rendered from [undefined]) and a name the registry knows. *)
Theorem tiles_always_resolved (w0 w : World) (evs : list Event) :
  _emojis w0 = ∅ → tiles w0 = [] → init w0 = Fulfilled tt w →
  Forall (λ t, is_Some (tile_emoji t) ∧ is_Some (_emojis w !! tile_name t))
         (tiles (run w evs)).
Proof.
  intros Hempty Htiles Hinit.
  destruct (run_invariant w evs (init_invariant w0 w Hempty Htiles Hinit))
    as (_ & _ & Hall).
  eapply Forall_impl; [exact Hall|].
  intros t [Hglyph Hname]. split; [done|]. by rewrite <- (run_emojis w evs).
Qed.

Lemma tiles_always_resolved_witness :
  let evs := [SearchInput "wa"; ToneChange 2; SearchSettles 1; SearchSettles 0;
              SearchInput ""] in
  Forall (λ t, is_Some (tile_emoji t) ∧
               is_Some (_emojis Sample.loaded !! tile_name t))
         (tiles (run Sample.loaded evs)).
Proof.
  intros evs.
  apply (tiles_always_resolved (Sample.fresh Sample.db) Sample.loaded evs);
    [reflexivity | reflexivity | by vm_compute].
Defined.

Lemma handle_inserted (w : World) (ev : Event) :
  inserted (handle w ev) = inserted w ++ executedGlyphs [ev].
Proof.
  destruct ev as [value|newName|newValue|data|i]; cbn [handle executedGlyphs omap list_omap];
    rewrite ?app_nil_r.
  - by destruct (callUpdateGrid_effects true (set_searchQuery (Some value) w))
      as (_ & _ & _ & ? & _).
  - by destruct (callUpdateGrid_effects false (set_currentCategoryName newName w))
      as (_ & _ & _ & ? & _).
  - by destruct (callUpdateGrid_effects false (set_selectedSkinTone newValue w))
      as (_ & _ & _ & ? & _).
  - done.
  - destruct (inflight w !! i) as [p|]; [|done].
    destruct (getEmojiBySearchQuery _ _) as [r|e].
    + rewrite updateGrid_resume_resolved. by destruct (reposition p).
    + done.
Qed.

(** X6.  The document receives the glyphs of the [execute] events, one
    insertion per event and in their order, and nothing else: no search,
    tone or category event inserts text. *)
Theorem run_inserts_executed (w : World) (evs : list Event) :
  inserted (run w evs) = inserted w ++ executedGlyphs evs.
Proof.
  unfold run. revert w. induction evs as [|ev evs IH]; intros w.
  - cbn. by rewrite app_nil_r.
  - cbn [foldl]. rewrite IH, handle_inserted, <- app_assoc. f_equal.
    unfold executedGlyphs. cbn [omap list_omap].
    by destruct ev.
Qed.
End Runs.

(** ** Browsing, and searches that come and go *)

Section Browsing.
Lemma callUpdateGrid_browsing (b : bool) (w : World) (g : EmojiGroup) :
  (∀ s, _searchQuery w = Some s → String.length s < 2) →
  findGroup (currentCategoryName w) (_emojiGroups w) = Some g →
  callUpdateGrid b w =
    afterUpdate b
      (Fulfilled tt
         (set_categoriesEnabled true
            (set_tiles (tileOf (_selectedSkinTone w) <$> items g) w))).
Proof.
  intros Hshort Hfind. apply tooShort_spec in Hshort.
  unfold callUpdateGrid. by rewrite (updateGrid_browsing w Hshort), Hfind.
Qed.



(** X8.  A search that has settled leaves no trace once the text is
    cleared: after a text of length 2 or more, the settling of its search
    and then a text shorter than 2, the grid holds the items of the current
    category at the selected tone, the categories are enabled and no search
    is in flight. *)
Theorem search_then_clear (w : World) (s s' : string)
    (queryResult : list QueriedEmoji) (g : EmojiGroup) :
  inflight w = [] →
  2 ≤ String.length s → String.length s' < 2 →
  getEmojiBySearchQuery (_emojiDatabase w) s = Resolved queryResult →
  findGroup (currentCategoryName w) (_emojiGroups w) = Some g →
  let w' := run w [SearchInput s; SearchSettles 0; SearchInput s'] in
  tiles w' = tileOf (_selectedSkinTone w) <$> items g ∧
  categoriesEnabled w' = true ∧
  inflight w' = [] ∧
  _searchQuery w' = Some s'.
Proof.
  intros Hin Hs Hs' Hdb Hfind. unfold run. cbn [foldl].
  assert (handle w (SearchInput s) =
          set_inflight [{| query := s; reposition := true |}]
            (set_tiles [] (set_searchQuery (Some s) w))) as ->.
  { cbn [handle]. rewrite (callUpdateGrid_searching true _ s) by done.
    cbn. by rewrite Hin. }
  erewrite (settle_resolved _ 0 {| query := s; reposition := true |} queryResult);
    [|reflexivity|exact Hdb].
  cbn [handle afterUpdate reposition].
  rewrite (callUpdateGrid_browsing true _ g); [done| |done].
  intros x [= <-]. done.
Qed.

Lemma search_then_clear_witness :
  let w' := run Sample.loaded [SearchInput "wa"; SearchSettles 0; SearchInput ""] in
  tiles w' = [createTile (Some "😀") "grinning face"] ∧
  categoriesEnabled w' = true ∧
  inflight w' = [] ∧
  _searchQuery w' = Some "".
Proof.
  apply (search_then_clear Sample.loaded "wa" ""
           [Native Sample.wave; Native Sample.ghost]
           {| title := "Smileys & Expressions"; exampleEmoji := "😀";
              items := [toEmojiItem Sample.grinning] |});
    [reflexivity | simpl; lia | simpl; lia | reflexivity | by vm_compute].
Defined.

(** X9.  A search still in flight when the text is cleared is not dropped:
    when it settles, its tiles are added after the tiles of the category and
    the categories are disabled, although the search text is shorter
    than 2. *)
Theorem clear_then_settle (w : World) (s s' : string)
    (queryResult : list QueriedEmoji) (g : EmojiGroup) :
  inflight w = [] →
  2 ≤ String.length s → String.length s' < 2 →
  getEmojiBySearchQuery (_emojiDatabase w) s = Resolved queryResult →
  findGroup (currentCategoryName w) (_emojiGroups w) = Some g →
  let w' := run w [SearchInput s; SearchInput s'; SearchSettles 0] in
  tiles w' = (tileOf (_selectedSkinTone w) <$> items g) ++ searchTiles w queryResult ∧
  categoriesEnabled w' = false ∧
  inflight w' = [] ∧
  _searchQuery w' = Some s'.
Proof.
  intros Hin Hs Hs' Hdb Hfind. unfold run. cbn [foldl].
  assert (handle w (SearchInput s) =
          set_inflight [{| query := s; reposition := true |}]
            (set_tiles [] (set_searchQuery (Some s) w))) as ->.
  { cbn [handle]. rewrite (callUpdateGrid_searching true _ s) by done.
    cbn. by rewrite Hin. }
  assert (handle (set_inflight [{| query := s; reposition := true |}]
                    (set_tiles [] (set_searchQuery (Some s) w)))
                 (SearchInput s') =
          afterUpdate true
            (Fulfilled tt
               (set_categoriesEnabled true
                  (set_tiles (tileOf (_selectedSkinTone w) <$> items g)
                     (set_searchQuery (Some s')
                        (set_inflight [{| query := s; reposition := true |}]
                           (set_tiles [] (set_searchQuery (Some s) w)))))))) as ->.
  { cbn [handle]. rewrite (callUpdateGrid_browsing true _ g); [done| |done].
    intros x [= <-]. done. }
  cbn [afterUpdate].
  erewrite (settle_resolved _ 0 {| query := s; reposition := true |} queryResult);
    [done|reflexivity|exact Hdb].
Qed.

Lemma clear_then_settle_witness :
  let w' := run Sample.loaded [SearchInput "wa"; SearchInput ""; SearchSettles 0] in
  tiles w' = [createTile (Some "😀") "grinning face";
              createTile (Some "👋") "waving hand"] ∧
  categoriesEnabled w' = false ∧
  inflight w' = [] ∧
  _searchQuery w' = Some "".
Proof.
  apply (clear_then_settle Sample.loaded "wa" ""
           [Native Sample.wave; Native Sample.ghost]
           {| title := "Smileys & Expressions"; exampleEmoji := "😀";
              items := [toEmojiItem Sample.grinning] |});
    [reflexivity | simpl; lia | simpl; lia | reflexivity | by vm_compute].
Defined.

Lemma tooShort_long (s : string) :
  tooShort (Some s) = false → 2 ≤ String.length s.
Proof.
  intros Hlong. destruct (decide (2 ≤ String.length s)) as [|Hshort]; [done|].
  assert (tooShort (Some s) = true) as Htrue; [|congruence].
  apply tooShort_spec. intros s' [= <-]. lia.
Qed.

(** What a call of [_updateGrid] from a handler can add to the unhandled
    rejections and to the searches in flight. *)
Lemma callUpdateGrid_trace (b : bool) (w : World) :
  let w' := callUpdateGrid b w in
  currentCategoryName w' = currentCategoryName w ∧
  _searchQuery w' = _searchQuery w ∧
  (∀ e, e ∈ unhandled w' →
        e ∈ unhandled w ∨
        (e = TypeError ∧
         findGroup (currentCategoryName w) (_emojiGroups w) = None)) ∧
  (∀ p, p ∈ inflight w' →
        p ∈ inflight w ∨
        (2 ≤ String.length (query p) ∧ _searchQuery w = Some (query p))).
Proof.
  unfold callUpdateGrid, _updateGrid, _getEmojisForCategory.
  cbn [_searchQuery set_tiles currentCategoryName _emojiGroups].
  destruct (tooShort (_searchQuery w)) eqn:Hshort.
  - destruct (findGroup _ _) as [g|] eqn:Hfind.
    + rewrite addTilesToGrid_eq. destruct b; cbn; repeat split; auto.
    + cbn. repeat split; auto.
      intros e Hin. apply elem_of_app in Hin as [Hin|Hin]; [by left|].
      apply list_elem_of_singleton in Hin. by right.
  - cbn. repeat split; auto.
    intros p Hin. apply elem_of_app in Hin as [Hin|Hin]; [by left|].
    apply list_elem_of_singleton in Hin. subst p. cbn [query]. right.
    destruct (_searchQuery w) as [s|] eqn:Hq; [|done].
    split; [by apply tooShort_long | done].
Qed.

(** The same for a handler: where a category name, a search text, an
    unhandled rejection or a search in flight comes from. *)
Lemma handle_trace (w : World) (ev : Event) :
  let w' := handle w ev in
  (currentCategoryName w' = currentCategoryName w ∨
   ev = CategoryChange (currentCategoryName w')) ∧
  (∀ q, _searchQuery w' = Some q → 2 ≤ String.length q →
        _searchQuery w = Some q ∨ ev = SearchInput q) ∧
  (∀ e, e ∈ unhandled w' →
        e ∈ unhandled w ∨
        (e = TypeError ∧
         findGroup (currentCategoryName w') (_emojiGroups w) = None) ∨
        (∃ p, p ∈ inflight w ∧
              getEmojiBySearchQuery (_emojiDatabase w) (query p) = Rejected e)) ∧
  (∀ p, p ∈ inflight w' →
        p ∈ inflight w ∨
        (2 ≤ String.length (query p) ∧ _searchQuery w' = Some (query p))).
Proof.
  destruct ev as [value|newName|newValue|data|i]; cbn [handle].
  - destruct (callUpdateGrid_trace true (set_searchQuery (Some value) w))
      as (Hc & Hq & Hu & Hi). cbn zeta in *.
    rewrite Hc, Hq. cbn [currentCategoryName _searchQuery set_searchQuery] in *.
    split; [by left|]. split; [by intros q [= <-]; right|].
    split; [|exact Hi].
    intros e He. destruct (Hu e He) as [?|?]; [by left | by right; left].
  - destruct (callUpdateGrid_trace false (set_currentCategoryName newName w))
      as (Hc & Hq & Hu & Hi). cbn zeta in *.
    rewrite Hc, Hq.
    cbn [currentCategoryName _searchQuery set_currentCategoryName] in *.
    split; [by right|]. split; [by left|]. split; [|exact Hi].
    intros e He. destruct (Hu e He) as [?|?]; [by left | by right; left].
  - destruct (callUpdateGrid_trace false (set_selectedSkinTone newValue w))
      as (Hc & Hq & Hu & Hi). cbn zeta in *.
    rewrite Hc, Hq.
    cbn [currentCategoryName _searchQuery set_selectedSkinTone] in *.
    split; [by left|]. split; [by left|]. split; [|exact Hi].
    intros e He. destruct (Hu e He) as [?|?]; [by left | by right; left].
  - cbn. split; [by left|]. split; [|split; by left].
    intros q [= <-] Hlen. cbn in Hlen. lia.
  - destruct (inflight w !! i) as [p|] eqn:Hp.
    2:{ split; [by left|]. split; [by left|]. split; by left. }
    destruct (getEmojiBySearchQuery _ (query p)) as [r|e0] eqn:Hdb.
    + rewrite updateGrid_resume_resolved.
      destruct (reposition p); cbn;
        (split; [by left|]; split; [by left|]; split; [by left|]);
        intros p' Hp'; left; by apply list_elem_of_delete_inv in Hp'.
    + cbn. split; [by left|]. split; [by left|]. split.
      * intros e He. apply elem_of_app in He as [He|He]; [by left|].
        apply list_elem_of_singleton in He. subst e0. right. right.
        exists p. split; [by apply (list_elem_of_lookup_2 _ i)|done].
      * intros p' Hp'. left. by apply list_elem_of_delete_inv in Hp'.
Qed.

(** X10.  Every rejection a run leaves unhandled is accounted for.  It was
    there before; or it is the [TypeError] of a grid update made while the
    category name (the one the run started with, or one that a category
    change of the run selected) was the title of no loaded group; or it is
    the error the database rejects a search text with, a text whose search
    was in flight before the run, or a text of length 2 or more that was
    the search text before the run or was entered during it. *)
Theorem run_unhandled_sources (w : World) (evs : list Event) (e : Error) :
  e ∈ unhandled (run w evs) →
  e ∈ unhandled w ∨
  (e = TypeError ∧
   ∃ n, (n = currentCategoryName w ∨ CategoryChange n ∈ evs) ∧
        ∀ g, g ∈ _emojiGroups w → title g ≠ n) ∨
  (∃ q, getEmojiBySearchQuery (_emojiDatabase w) q = Rejected e ∧
        (q ∈ query <$> inflight w ∨
         (2 ≤ String.length q ∧
          (_searchQuery w = Some q ∨ SearchInput q ∈ evs)))).
Proof.
  unfold run. revert w. induction evs as [|ev evs IH]; intros w; [by left|].
  cbn [foldl]. intros Hin.
  destruct (handle_frame w ev) as (_ & Hg & Hd).
  destruct (handle_trace w ev) as (Hcat & Hquery & Hunh & Hinf). cbn zeta in *.
  assert (∀ x, ev = x → x ∈ ev :: evs) as Hhere
    by (intros x <-; apply list_elem_of_here).
  destruct (IH _ Hin) as [He|[[-> (n & Hn & Hnone)]|(q & Hq & Hsrc)]].
  - destruct (Hunh e He) as [?|[[-> Hfind]|(p & Hp & Hrej)]]; [by left| |].
    + right. left. split; [done|].
      exists (currentCategoryName (handle w ev)). split.
      * destruct Hcat as [->|Hev]; [by left|]. right. by apply Hhere.
      * by apply findGroup_None.
    + right. right. exists (query p). split; [done|]. left.
      by apply list_elem_of_fmap_2.
  - right. left. split; [done|]. exists n. rewrite <- Hg. split; [|done].
    destruct Hn as [->|Hn].
    + destruct Hcat as [->|Hev]; [by left|]. right. by apply Hhere.
    + right. by apply list_elem_of_further.
  - right. right. exists q. rewrite <- Hd. split; [done|].
    assert (2 ≤ String.length q → _searchQuery (handle w ev) = Some q →
            2 ≤ String.length q ∧ (_searchQuery w = Some q ∨ SearchInput q ∈ ev :: evs))
      as Hfrom.
    { intros Hlen Hsq. split; [done|].
      destruct (Hquery q Hsq Hlen) as [?|Hev]; [by left|].
      right. by apply Hhere. }
    destruct Hsrc as [Hsrc|[Hlen [Hsq|Hev]]].
    + apply list_elem_of_fmap in Hsrc as (p & -> & Hp).
      destruct (Hinf p Hp) as [?|[Hlen Hsq]].
      * left. by apply list_elem_of_fmap_2.
      * right. by apply Hfrom.
    + right. by apply Hfrom.
    + right. split; [done|]. right. by apply list_elem_of_further.
Qed.

Lemma run_unhandled_sources_witness :
  let w := Sample.loaded in
  let evs := [ToneChange 1; SearchInput "zz"; SearchSettles 0] in
  DataUnavailable ∈ unhandled w ∨
  (DataUnavailable = TypeError ∧
   ∃ n, (n = currentCategoryName w ∨ CategoryChange n ∈ evs) ∧
        ∀ g, g ∈ _emojiGroups w → title g ≠ n) ∨
  (∃ q, getEmojiBySearchQuery (_emojiDatabase w) q = Rejected DataUnavailable ∧
        (q ∈ query <$> inflight w ∨
         (2 ≤ String.length q ∧
          (_searchQuery w = Some q ∨ SearchInput q ∈ evs)))).
Proof.
  intros w evs. apply (run_unhandled_sources w evs DataUnavailable).
  vm_compute. apply list_elem_of_here.
Defined.
End Browsing.

(** ** The mention feed: limits, failures and ids *)

Section MentionFeedEdges.
Variable formatEmojiId : string → string.
Variable getShowAllEmojiId : string.
Variable toLocaleLowerCase : string → string.

Lemma getQueryEmojiFn_natives (queryLimit : Z) (emojiDatabase : Database)
    (searchQuery : string) (natives : list NativeEmoji) :
  getEmojiBySearchQuery emojiDatabase searchQuery = Resolved (Native <$> natives) →
  getQueryEmojiFn formatEmojiId getShowAllEmojiId toLocaleLowerCase
                  queryLimit emojiDatabase searchQuery
  = Resolved (take (Z.to_nat (queryLimit - 1))
                   (feedItem formatEmojiId toLocaleLowerCase <$> natives)
              ++ [showAllItem getShowAllEmojiId]).
Proof.
  intros Hdb. unfold getQueryEmojiFn. rewrite Hdb, feedItems_natives.
  by rewrite filterIndexed_below, Nat.sub_0_r.
Qed.

(** X11.  With a limit of 1 or less (0 and negative limits included) the
    feed of a search that resolves to native emojis is the show-all entry
    alone: the feed is never empty, and it exceeds a limit below 1. *)
Theorem getQueryEmojiFn_small_limit
    (queryLimit : Z) (emojiDatabase : Database) (searchQuery : string)
    (natives : list NativeEmoji) :
  (queryLimit ≤ 1)%Z →
  getEmojiBySearchQuery emojiDatabase searchQuery = Resolved (Native <$> natives) →
  getQueryEmojiFn formatEmojiId getShowAllEmojiId toLocaleLowerCase
                  queryLimit emojiDatabase searchQuery
  = Resolved [showAllItem getShowAllEmojiId].
Proof.
  intros Hlimit Hdb. rewrite (getQueryEmojiFn_natives _ _ _ natives Hdb).
  replace (Z.to_nat (queryLimit - 1)) with 0 by lia. by rewrite take_0.
Qed.

(** X12.  The matches shown under a limit are a prefix of the matches
    shown under any larger limit, and when the matches number less than the
    limit all of them are shown, in the order of the result. *)
Theorem getQueryEmojiFn_monotone
    (a b : Z) (emojiDatabase : Database) (searchQuery : string)
    (natives : list NativeEmoji) :
  (a ≤ b)%Z →
  getEmojiBySearchQuery emojiDatabase searchQuery = Resolved (Native <$> natives) →
  ∃ shownA shownB,
    getQueryEmojiFn formatEmojiId getShowAllEmojiId toLocaleLowerCase
                    a emojiDatabase searchQuery
      = Resolved (shownA ++ [showAllItem getShowAllEmojiId]) ∧
    getQueryEmojiFn formatEmojiId getShowAllEmojiId toLocaleLowerCase
                    b emojiDatabase searchQuery
      = Resolved (shownB ++ [showAllItem getShowAllEmojiId]) ∧
    shownA `prefix_of` shownB ∧
    ((Z.of_nat (length natives) < b)%Z →
     shownB = feedItem formatEmojiId toLocaleLowerCase <$> natives).
Proof.
  intros Hab Hdb. eexists _, _.
  split; [by apply getQueryEmojiFn_natives|].
  split; [by apply getQueryEmojiFn_natives|].
  split.
  - set (l := feedItem formatEmojiId toLocaleLowerCase <$> natives).
    exists (drop (Z.to_nat (a - 1)) (take (Z.to_nat (b - 1)) l)).
    rewrite <- (take_drop (Z.to_nat (a - 1)) (take (Z.to_nat (b - 1)) l)) at 1.
    f_equal. rewrite take_take. f_equal. lia.
  - intros Hlen. apply take_ge. rewrite length_fmap. lia.
Qed.

Lemma feedItems_custom (queryResult : list QueriedEmoji) (c : string) :
  Custom c ∈ queryResult →
  feedItems formatEmojiId toLocaleLowerCase queryResult = Rejected TypeError.
Proof.
  induction queryResult as [|q l IH]; intros Hin; [by apply elem_of_nil in Hin|].
  apply elem_of_cons in Hin as [<-|Hin]; [done|].
  destruct q as [e|c']; [|done]. cbn [feedItems]. by rewrite IH.
Qed.

Lemma feedItems_resolved (queryResult : list QueriedEmoji)
    (r : list MentionFeedObjectItem) :
  feedItems formatEmojiId toLocaleLowerCase queryResult = Resolved r →
  ∃ natives, queryResult = Native <$> natives.
Proof.
  revert r. induction queryResult as [|q l IH]; intros r Hr.
  - by exists [].
  - destruct q as [e|c]; [|done]. cbn [feedItems] in Hr.
    destruct (feedItems _ _ l) as [r'|e'] eqn:El; [|done].
    destruct (IH r' eq_refl) as [natives ->]. by exists (e :: natives).
Qed.

(** X13.  The feed fails exactly as the search does, or on an entry it
    cannot read: a rejection of the database is the rejection of the feed,
    whatever the limit; a custom emoji anywhere in the result, beyond the
    limit as well, makes the feed reject with a [TypeError]; and a feed that
    resolves comes from a result of native emojis only. *)
Theorem getQueryEmojiFn_failures
    (queryLimit : Z) (emojiDatabase : Database) (searchQuery : string) :
  (∀ e, getEmojiBySearchQuery emojiDatabase searchQuery = Rejected e →
        getQueryEmojiFn formatEmojiId getShowAllEmojiId toLocaleLowerCase
                        queryLimit emojiDatabase searchQuery = Rejected e) ∧
  (∀ queryResult c,
     getEmojiBySearchQuery emojiDatabase searchQuery = Resolved queryResult →
     Custom c ∈ queryResult →
     getQueryEmojiFn formatEmojiId getShowAllEmojiId toLocaleLowerCase
                     queryLimit emojiDatabase searchQuery = Rejected TypeError) ∧
  (∀ feed,
     getQueryEmojiFn formatEmojiId getShowAllEmojiId toLocaleLowerCase
                     queryLimit emojiDatabase searchQuery = Resolved feed →
     ∃ natives,
       getEmojiBySearchQuery emojiDatabase searchQuery = Resolved (Native <$> natives)).
Proof.
  unfold getQueryEmojiFn. split; [|split].
  - by intros e ->.
  - intros queryResult c -> Hc. by rewrite (feedItems_custom _ c Hc).
  - intros feed Hfeed.
    destruct (getEmojiBySearchQuery emojiDatabase searchQuery) as [r|e]; [|done].
    destruct (feedItems _ _ r) as [items0|e] eqn:Hitems; [|done].
    destruct (feedItems_resolved _ _ Hitems) as [natives ->]. by exists natives.
Qed.
End MentionFeedEdges.

Lemma getQueryEmojiFn_small_limit_witness :
  let emojiDatabase :=
    {| getEmojiByGroup := λ _, Resolved [];
       getEmojiBySearchQuery := λ _, Resolved (Native <$> [Sample.grinning; Sample.wave]) |} in
  getQueryEmojiFn (λ s, s) ":__EMOJI_SHOW_ALL:" (λ s, s) 0 emojiDatabase "g"
  = Resolved [showAllItem ":__EMOJI_SHOW_ALL:"].
Proof.
  intros emojiDatabase.
  apply (getQueryEmojiFn_small_limit (λ s, s) ":__EMOJI_SHOW_ALL:" (λ s, s) 0
           emojiDatabase "g" [Sample.grinning; Sample.wave]); [lia | reflexivity].
Defined.

Lemma getQueryEmojiFn_monotone_witness :
  let natives := [Sample.grinning; Sample.wave; Sample.ghost] in
  let emojiDatabase :=
    {| getEmojiByGroup := λ _, Resolved [];
       getEmojiBySearchQuery := λ _, Resolved (Native <$> natives) |} in
  ∃ shownA shownB,
    getQueryEmojiFn (λ s, s) ":__EMOJI_SHOW_ALL:" (λ s, s) 2 emojiDatabase "g"
      = Resolved (shownA ++ [showAllItem ":__EMOJI_SHOW_ALL:"]) ∧
    getQueryEmojiFn (λ s, s) ":__EMOJI_SHOW_ALL:" (λ s, s) 5 emojiDatabase "g"
      = Resolved (shownB ++ [showAllItem ":__EMOJI_SHOW_ALL:"]) ∧
    shownA `prefix_of` shownB ∧
    ((Z.of_nat (length natives) < 5)%Z →
     shownB = feedItem (λ s, s) (λ s, s) <$> natives).
Proof.
  intros natives emojiDatabase.
  apply (getQueryEmojiFn_monotone (λ s, s) ":__EMOJI_SHOW_ALL:" (λ s, s) 2 5
           emojiDatabase "g" natives); [lia | reflexivity].
Defined.

Lemma getQueryEmojiFn_failures_witness :
  let emojiDatabase :=
    {| getEmojiByGroup := λ _, Resolved [];
       getEmojiBySearchQuery := λ q,
         if String.eqb q "zz" then Rejected DataUnavailable
         else Resolved [Native Sample.grinning; Custom "party"] |} in
  getQueryEmojiFn (λ s, s) ":__EMOJI_SHOW_ALL:" (λ s, s) 2 emojiDatabase "zz"
    = Rejected DataUnavailable ∧
  getQueryEmojiFn (λ s, s) ":__EMOJI_SHOW_ALL:" (λ s, s) 2 emojiDatabase "gr"
    = Rejected TypeError.
Proof.
  intros emojiDatabase. split.
  - apply (proj1 (getQueryEmojiFn_failures (λ s, s) ":__EMOJI_SHOW_ALL:" (λ s, s)
                    2 emojiDatabase "zz")).
    reflexivity.
  - apply (proj1 (proj2 (getQueryEmojiFn_failures (λ s, s) ":__EMOJI_SHOW_ALL:"
                           (λ s, s) 2 emojiDatabase "gr"))
             [Native Sample.grinning; Custom "party"] "party");
      [reflexivity|]. apply list_elem_of_further, list_elem_of_here.
Defined.

(** *** The separators of an annotation *)

Section Separators.
Lemma replaceRuns_clean (inRun : bool) (s : string) :
  Forall (λ c, isSeparator c = false) (list_ascii_of_string (replaceRuns inRun s)).
Proof.
  revert inRun. induction s as [|c s IH]; intros inRun; cbn [replaceRuns].
  - constructor.
  - destruct (isSeparator c) eqn:Hc.
    + destruct inRun; [apply IH|]. cbn [list_ascii_of_string].
      constructor; [done | apply IH].
    + cbn [list_ascii_of_string]. constructor; [done | apply IH].
Qed.

Lemma replaceRuns_fixed (inRun : bool) (s : string) :
  Forall (λ c, isSeparator c = false) (list_ascii_of_string s) →
  replaceRuns inRun s = s.
Proof.
  revert inRun. induction s as [|c s IH]; intros inRun Hs; [done|].
  cbn [list_ascii_of_string] in Hs. apply Forall_cons in Hs as [Hc Hs].
  cbn [replaceRuns]. rewrite Hc. by rewrite IH.
Qed.

Lemma replaceRuns_length (inRun : bool) (s : string) :
  String.length (replaceRuns inRun s) ≤ String.length s.
Proof.
  revert inRun. induction s as [|c s IH]; intros inRun; cbn [replaceRuns]; [done|].
  destruct (isSeparator c).
  - destruct inRun; cbn [String.length].
    + specialize (IH true). lia.
    + specialize (IH true). lia.
  - cbn [String.length]. specialize (IH false). lia.
Qed.

(** X14.  The replacement of the runs of spaces and colons of an
    annotation leaves no space and no colon, never lengthens the text,
    leaves a text without spaces and colons as it is, and applied twice
    gives what it gives applied once. *)
Theorem replaceRuns_separators (s : string) :
  Forall (λ c, c ≠ " "%char ∧ c ≠ ":"%char)
         (list_ascii_of_string (replaceRuns false s)) ∧
  String.length (replaceRuns false s) ≤ String.length s ∧
  (Forall (λ c, c ≠ " "%char ∧ c ≠ ":"%char) (list_ascii_of_string s) →
   replaceRuns false s = s) ∧
  replaceRuns false (replaceRuns false s) = replaceRuns false s.
Proof.
  assert (∀ c, isSeparator c = false ↔ c ≠ " "%char ∧ c ≠ ":"%char) as Hsep.
  { intros c. unfold isSeparator. rewrite orb_false_iff.
    by rewrite !Ascii.eqb_neq. }
  split; [|split; [|split]].
  - eapply Forall_impl; [apply replaceRuns_clean|]. intros c. apply Hsep.
  - apply replaceRuns_length.
  - intros Hs. apply replaceRuns_fixed.
    eapply Forall_impl; [exact Hs|]. intros c. apply Hsep.
  - apply replaceRuns_fixed, replaceRuns_clean.
Qed.

Lemma replaceRuns_separators_witness :
  replaceRuns false "flag_mexico" = "flag_mexico".
Proof.
  apply (proj1 (proj2 (proj2 (replaceRuns_separators "flag_mexico")))).
  repeat (constructor; [split; discriminate|]). constructor.
Defined.
End Separators.

(** ** The snippet adapter: external imports *)

Section External.
Lemma append_cons (c : Ascii.ascii) (s t : string) :
  String.append (String c s) t = String c (String.append s t).
Proof. reflexivity. Qed.

Lemma append_empty (t : string) : String.append "" t = t.
Proof. reflexivity. Qed.

Lemma startsWith_spec (s prefix0 : string) :
  startsWith s prefix0 = true ↔ ∃ rest, s = String.append prefix0 rest.
Proof.
  unfold startsWith. revert s.
  induction prefix0 as [|a p IH]; intros s.
  - destruct s; cbn [String.prefix]; split; eauto.
  - destruct s as [|b s]; cbn [String.prefix].
    + split; [done|]. intros [rest Hrest]. by rewrite append_cons in Hrest.
    + destruct (Ascii.ascii_dec a b) as [->|Hne].
      * rewrite IH. split; intros [rest Hrest]; exists rest.
        -- by rewrite append_cons, Hrest.
        -- rewrite append_cons in Hrest. by injection Hrest.
      * split; [done|]. intros [rest Hrest].
        rewrite append_cons in Hrest. by injection Hrest.
Qed.

Lemma append_empty_r (s : string) : String.append s "" = s.
Proof.
  induction s as [|c s IH]; [done|]. by rewrite append_cons, IH.
Qed.

Lemma startsWith_refl (s : string) : startsWith s s = true.
Proof. apply startsWith_spec. exists "". by rewrite append_empty_r. Qed.

Lemma endsWith_slash_cons (c : Ascii.ascii) (s : string) :
  s ≠ "" → endsWith (String c s) "/" = endsWith s "/".
Proof.
  intros Hs. destruct s as [|d s]; [done|]. unfold endsWith.
  cbn [String.length]. rewrite !Nat.sub_succ, !Nat.sub_0_r. done.
Qed.

Lemma endsWith_slash_spec (s : string) :
  endsWith s "/" = true ↔ ∃ dir, s = String.append dir "/".
Proof.
  induction s as [|c s IH].
  - split; [done|]. intros [[|d dir] Hdir]; discriminate.
  - destruct (decide (s = "")) as [->|Hs].
    + unfold endsWith. cbn. destruct (Ascii.eqb_spec c "/") as [->|Hc].
      * split; [|done]. intros _. by exists "".
      * split; [done|]. intros [[|d dir] Hdir].
        -- rewrite append_empty in Hdir. by injection Hdir.
        -- rewrite append_cons in Hdir. injection Hdir as _ Hdir.
           destruct dir; discriminate.
    + rewrite (endsWith_slash_cons c s Hs), IH. split.
      * intros [dir ->]. exists (String c dir). by rewrite append_cons.
      * intros [[|d dir] Hdir].
        -- rewrite append_empty in Hdir. injection Hdir as _ Hdir. done.
        -- rewrite append_cons in Hdir. injection Hdir as _ Hdir. by exists dir.
Qed.

Lemma isExternal_iff (externals : list string) (path : string) :
  isExternal externals path = true ↔
  ∃ name0, name0 ∈ externals ∧
    ((endsWith name0 "/" = true ∧ ∃ rest, path = String.append name0 rest) ∨
     (endsWith name0 "/" = false ∧ path = name0)).
Proof.
  unfold isExternal. rewrite existsb_exists. split.
  - intros (name0 & Hin & Hmatch). exists name0.
    split; [by apply list_elem_of_In|].
    destruct (endsWith name0 "/").
    + left. split; [done|]. by apply startsWith_spec.
    + right. split; [done|]. by apply String.eqb_eq.
  - intros (name0 & Hin & [[Hend Hrest]|[Hend ->]]); exists name0;
      (split; [by apply list_elem_of_In|]); rewrite Hend.
    + by apply startsWith_spec.
    + apply String.eqb_refl.
Qed.

(** X15.  An import is external exactly when it is one of the external
    names, or lies under an external name that ends with a slash.  A name
    without the final slash matches itself only: with no name ending in a
    slash, the external imports are the names themselves, and a path
    inside such a package is bundled. *)
Theorem isExternal_spec (externals : list string) (path : string) :
  (isExternal externals path = true ↔
   ∃ name0, name0 ∈ externals ∧
     ((∃ dir, name0 = String.append dir "/") ∧
      (∃ rest, path = String.append name0 rest) ∨
      (¬ ∃ dir, name0 = String.append dir "/") ∧ path = name0)) ∧
  ((∀ name0 dir, name0 ∈ externals → name0 ≠ String.append dir "/") →
   (isExternal externals path = true ↔ path ∈ externals)).
Proof.
  assert (∀ name0, endsWith name0 "/" = false ↔
                   ¬ ∃ dir, name0 = String.append dir "/") as Hfalse.
  { intros name0. rewrite <- endsWith_slash_spec. by destruct (endsWith name0 "/"). }
  split.
  - rewrite isExternal_iff. split.
    + intros (name0 & Hin & [[Hend Hrest]|[Hend ->]]); exists name0; (split; [done|]).
      * left. split; [by apply endsWith_slash_spec | done].
      * right. split; [by apply Hfalse | done].
    + intros (name0 & Hin & [[Hend Hrest]|[Hend ->]]); exists name0; (split; [done|]).
      * left. split; [by apply endsWith_slash_spec | done].
      * right. split; [by apply Hfalse | done].
  - intros Hnone. rewrite isExternal_iff. split.
    + intros (name0 & Hin & [[Hend _]|[_ ->]]); [|done].
      apply endsWith_slash_spec in Hend as [dir Hdir]. by destruct (Hnone name0 dir).
    + intros Hin. exists path. split; [done|]. right. split; [|done].
      apply Hfalse. intros [dir Hdir]. by destruct (Hnone path dir).
Qed.

Lemma isExternal_spec_witness :
  isExternal ["@ckeditor/ckeditor5-core"] "@ckeditor/ckeditor5-core" = true ∧
  isExternal ["@ckeditor/ckeditor5-core"] "@ckeditor/ckeditor5-core/tests/x.js" ≠ true.
Proof.
  assert (∀ name0 dir, name0 ∈ ["@ckeditor/ckeditor5-core"] →
                       name0 ≠ String.append dir "/") as Hnone.
  { intros name0 dir Hin Hdir. apply list_elem_of_singleton in Hin. subst name0.
    assert (endsWith "@ckeditor/ckeditor5-core" "/" = true) as Hend
      by (apply endsWith_slash_spec; by exists dir).
    discriminate Hend. }
  split.
  - apply (proj2 (isExternal_spec ["@ckeditor/ckeditor5-core"]
                    "@ckeditor/ckeditor5-core") Hnone).
    apply list_elem_of_here.
  - intros Hext.
    apply (proj2 (isExternal_spec ["@ckeditor/ckeditor5-core"]
                    "@ckeditor/ckeditor5-core/tests/x.js") Hnone) in Hext.
    apply list_elem_of_singleton in Hext. discriminate.
Defined.
End External.

(** ** The snippet adapter: the import map *)

Section ImportMap.
Lemma truthy_true (s : string) : s ≠ "" → truthy s = true.
Proof. by destruct s. Qed.

Lemma inheritedMember_spec (key : string) :
  inheritedMember key = true ↔ key ∈ objectPrototypeMembers.
Proof.
  unfold inheritedMember. rewrite existsb_exists. split.
  - intros (m & Hin & Heq). apply String.eqb_eq in Heq. subst m.
    by apply list_elem_of_In.
  - intros Hin. exists key. split; [by apply list_elem_of_In | apply String.eqb_refl].
Qed.

Lemma inheritedMember_false (key : string) :
  inheritedMember key = false ↔ key ∉ objectPrototypeMembers.
Proof.
  rewrite <- inheritedMember_spec. by destruct (inheritedMember key).
Qed.

Lemma dependencyKeys_elem (dependencies : list string) (key : string) :
  key ∈ dependencyKeys dependencies ↔
  ∃ d, d ∈ dependencies ∧ (key = d ∨ key = String.append d "/dist/index.js").
Proof.
  unfold dependencyKeys. rewrite elem_of_app, list_elem_of_fmap. split.
  - intros [Hin|(d & -> & Hin)]; [exists key | exists d]; auto.
  - intros (d & Hin & [->| ->]); [by left | right; by exists d].
Qed.

Lemma orAssign_lookup (key value : string) (imports : gmap string string)
    (k : string) :
  allTruthy imports →
  orAssign key value imports !! k =
    match imports !! k with
    | Some v => Some v
    | None => if decide (k = key ∧ inheritedMember k = false)
              then Some value else None
    end.
Proof.
  intros Hall. unfold orAssign.
  destruct (imports !! key) as [current|] eqn:Hkey.
  - rewrite (truthy_true current) by (by apply (Hall key)).
    destruct (imports !! k) eqn:Hk; [done|].
    case_decide as Hdec; [|done]. destruct Hdec as [-> _]. congruence.
  - destruct (inheritedMember key) eqn:Hinh.
    + destruct (imports !! k) eqn:Hk; [done|].
      case_decide as Hdec; [|done]. destruct Hdec as [-> Hf]. congruence.
    + destruct (decide (k = key)) as [->|Hne].
      * rewrite lookup_insert_eq, Hkey. by rewrite decide_True.
      * rewrite lookup_insert_ne by done. destruct (imports !! k); [done|].
        rewrite decide_False; [done|]. by intros [? _].
Qed.

Lemma orAssign_allTruthy (key value : string) (imports : gmap string string) :
  value ≠ "" → allTruthy imports → allTruthy (orAssign key value imports).
Proof.
  intros Hv Hall k v. rewrite orAssign_lookup by done.
  destruct (imports !! k) eqn:Hk; [intros [= <-]; by apply (Hall k)|].
  case_decide; [by intros [= <-] | done].
Qed.

Lemma addDependencies_lookup (main url : string) (dependencies : list string)
    (imports : gmap string string) :
  imports !! main = Some url → allTruthy imports →
  allTruthy (addDependencies main dependencies imports) ∧
  ∀ k, addDependencies main dependencies imports !! k =
         match imports !! k with
         | Some v => Some v
         | None => if decide (k ∈ dependencyKeys dependencies ∧
                              inheritedMember k = false)
                   then Some url else None
         end.
Proof.
  unfold addDependencies, dependencyKeys. revert imports.
  induction dependencies as [|d l IH]; intros imports Hmain Hall.
  - split; [done|]. intros k. cbn [foldl fmap list_fmap app].
    rewrite decide_False; [by destruct (imports !! k)|].
    intros [Hin _]. by apply elem_of_nil in Hin.
  - assert (url ≠ "") as Hurl by (by apply (Hall main)).
    assert (allTruthy (orAssign d url imports)) as Hall1
      by (by apply orAssign_allTruthy).
    assert (orAssign d url imports !! main = Some url) as Hmain1.
    { rewrite orAssign_lookup by done. by rewrite Hmain. }
    cbn [foldl]. rewrite Hmain. change (default "" (Some url)) with url.
    rewrite Hmain1. change (default "" (Some url)) with url.
    set (m1 := orAssign d url imports) in *.
    set (m2 := orAssign (String.append d "/dist/index.js") url m1).
    assert (allTruthy m2) as Hall2 by (by apply orAssign_allTruthy).
    assert (m2 !! main = Some url) as Hmain2.
    { unfold m2. rewrite orAssign_lookup by done. by rewrite Hmain1. }
    destruct (IH m2 Hmain2 Hall2) as [Hall' Hlook]. split; [done|].
    intros k. rewrite Hlook. unfold m2, m1. rewrite !orAssign_lookup by done.
    rewrite fmap_cons.
    destruct (imports !! k) as [v|]; [done|].
    destruct (inheritedMember k) eqn:Hinh.
    { rewrite !decide_False; [done|by intros [_ ?]..]. }
    destruct (decide (k = d)) as [->|Hd].
    { rewrite decide_True by done. rewrite decide_True; [done|].
      split; [|done]. apply elem_of_app. left. apply list_elem_of_here. }
    rewrite (decide_False (P := k = d ∧ false = false)) by (by intros [? _]).
    destruct (decide (k = String.append d "/dist/index.js")) as [->|Hdd].
    { rewrite decide_True by done. rewrite decide_True; [done|].
      split; [|done]. apply elem_of_app. right. apply list_elem_of_here. }
    rewrite (decide_False (P := k = String.append d "/dist/index.js" ∧ false = false))
      by (by intros [? _]).
    apply decide_ext. rewrite !elem_of_app, !elem_of_cons. clear -Hd Hdd. tauto.
Qed.

Lemma baseImports_allTruthy : allTruthy baseImports.
Proof.
  intros k v. unfold baseImports.
  rewrite !lookup_insert.
  repeat case_decide; first [by intros [= <-] | by rewrite lookup_empty].
Qed.

Lemma baseImports_None (key : string) :
  key ∉ ["ckeditor5"; "ckeditor5/"; "ckeditor5-premium-features";
         "ckeditor5-premium-features/"] →
  baseImports !! key = None.
Proof.
  intros Hkey. unfold baseImports. rewrite !lookup_insert.
  repeat case_decide; subst;
    first [ by rewrite lookup_empty
          | exfalso; apply Hkey; repeat first [apply list_elem_of_here
                                              | apply list_elem_of_further] ].
Qed.

Lemma importMap_lookup
    (coreDependencies commercialDependencies : list string) (key : string) :
  getImportMap coreDependencies commercialDependencies !! key =
    match baseImports !! key with
    | Some url => Some url
    | None =>
        if decide (key ∈ dependencyKeys coreDependencies ∧
                   inheritedMember key = false) then Some cdnCore
        else if decide (key ∈ dependencyKeys commercialDependencies ∧
                        inheritedMember key = false)
             then Some cdnCommercial
             else None
    end.
Proof.
  unfold getImportMap.
  destruct (addDependencies_lookup "ckeditor5" cdnCore coreDependencies baseImports)
    as [Hall1 Hlook1]; [done | apply baseImports_allTruthy |].
  destruct (addDependencies_lookup "ckeditor5-premium-features" cdnCommercial
              commercialDependencies
              (addDependencies "ckeditor5" coreDependencies baseImports))
    as [_ Hlook2]; [by rewrite Hlook1 | done |].
  rewrite Hlook2, Hlook1.
  destruct (baseImports !! key); [done|]. by case_decide.
Qed.

(** X16.  The import map is the four entries of the literal, then the core
    dependencies, then the commercial ones.  The four entries of the literal
    are never replaced, whatever the dependencies are named.  Of the other
    keys, one that is the name of a member of [Object.prototype] (such as
    [constructor]) is never added.  Any other key of a core dependency (its
    name, or its name followed by [/dist/index.js]) has the URL of
    [ckeditor5]; a key of a commercial dependency that is no key of a core
    one has the URL of [ckeditor5-premium-features]: a dependency of both
    packages is served from [ckeditor5].  There is no other key. *)
Theorem getImportMap_lookup
    (coreDependencies commercialDependencies : list string) :
  let imports := getImportMap coreDependencies commercialDependencies in
  let keyOf := λ (dependencies : list string) (key : string),
    ∃ d, d ∈ dependencies ∧ (key = d ∨ key = String.append d "/dist/index.js") in
  (imports !! "ckeditor5" = Some cdnCore ∧
   imports !! "ckeditor5/" = Some cdnCoreDir ∧
   imports !! "ckeditor5-premium-features" = Some cdnCommercial ∧
   imports !! "ckeditor5-premium-features/" = Some cdnCommercialDir) ∧
  (∀ key,
     key ∉ ["ckeditor5"; "ckeditor5/"; "ckeditor5-premium-features";
            "ckeditor5-premium-features/"] →
     (key ∈ objectPrototypeMembers → imports !! key = None) ∧
     (key ∉ objectPrototypeMembers → keyOf coreDependencies key →
      imports !! key = Some cdnCore) ∧
     (key ∉ objectPrototypeMembers → ¬ keyOf coreDependencies key →
      keyOf commercialDependencies key →
      imports !! key = Some cdnCommercial) ∧
     (¬ keyOf coreDependencies key → ¬ keyOf commercialDependencies key →
      imports !! key = None)).
Proof.
  cbn zeta. split.
  - rewrite !importMap_lookup. done.
  - intros key Hbase. rewrite importMap_lookup, (baseImports_None key Hbase).
    split; [|split; [|split]].
    + intros Hinh. apply inheritedMember_spec in Hinh.
      rewrite !decide_False; [done|intros [_ ?]; congruence..].
    + intros Hinh Hc. apply inheritedMember_false in Hinh.
      apply dependencyKeys_elem in Hc. by rewrite decide_True.
    + intros Hinh Hc Hm. apply inheritedMember_false in Hinh.
      apply dependencyKeys_elem in Hm.
      rewrite decide_False, decide_True; [done..|].
      intros [Hk _]. by apply Hc, dependencyKeys_elem.
    + intros Hc Hm.
      rewrite !decide_False; [done|intros [Hk _]..].
      * by apply Hm, dependencyKeys_elem.
      * by apply Hc, dependencyKeys_elem.
Qed.

Lemma getImportMap_lookup_witness :
  let imports :=
    getImportMap ["@ckeditor/ckeditor5-core"; "lodash-es"; "constructor"]
                 ["lodash-es"] in
  imports !! "constructor" = None ∧
  imports !! "lodash-es" = Some cdnCore ∧
  imports !! "constructor/dist/index.js" = Some cdnCore.
Proof.
  intros imports.
  assert (∀ key, inheritedMember key = false → key ∉ objectPrototypeMembers) as Hnot
    by (intros key; apply inheritedMember_false).
  assert (∀ key,
            existsb (String.eqb key)
              ["ckeditor5"; "ckeditor5/"; "ckeditor5-premium-features";
               "ckeditor5-premium-features/"] = false →
            key ∉ ["ckeditor5"; "ckeditor5/"; "ckeditor5-premium-features";
                   "ckeditor5-premium-features/"]) as Hbase.
  { intros key Hf Hin. apply list_elem_of_In in Hin.
    assert (existsb (String.eqb key)
              ["ckeditor5"; "ckeditor5/"; "ckeditor5-premium-features";
               "ckeditor5-premium-features/"] = true) as Ht; [|congruence].
    apply existsb_exists. exists key. split; [done | apply String.eqb_refl]. }
  destruct (getImportMap_lookup
              ["@ckeditor/ckeditor5-core"; "lodash-es"; "constructor"] ["lodash-es"])
    as [_ Hkeys].
  split; [|split].
  - apply (proj1 (Hkeys "constructor" (Hbase "constructor" eq_refl))).
    apply list_elem_of_here.
  - apply (proj1 (proj2 (Hkeys "lodash-es" (Hbase "lodash-es" eq_refl)))).
    + by apply Hnot.
    + exists "lodash-es". split; [|by left].
      apply list_elem_of_further, list_elem_of_here.
  - apply (proj1 (proj2 (Hkeys "constructor/dist/index.js"
                              (Hbase "constructor/dist/index.js" eq_refl)))).
    + by apply Hnot.
    + exists "constructor". split; [|by right].
      do 2 apply list_elem_of_further. apply list_elem_of_here.
Defined.

Lemma endsWith_dist (d : string) :
  endsWith (String.append d "/dist/index.js") "/" = false.
Proof.
  induction d as [|c d IH]; [done|].
  rewrite append_cons, endsWith_slash_cons; [done|].
  destruct d; [done|]. by rewrite append_cons.
Qed.

Lemma externalsOf_elem (imports : gmap string string) (k : string) :
  k ∈ externalsOf imports ↔ is_Some (imports !! k).
Proof.
  unfold externalsOf. rewrite list_elem_of_fmap. split.
  - intros ([k' v] & -> & Hin). apply elem_of_map_to_list in Hin. by eexists.
  - intros [v Hv]. exists (k, v). split; [done|]. by apply elem_of_map_to_list.
Qed.

(** The keys of the import map. *)
Lemma importMap_key
    (coreDependencies commercialDependencies : list string) (key : string) :
  is_Some (getImportMap coreDependencies commercialDependencies !! key) ↔
  key ∈ ["ckeditor5"; "ckeditor5/"; "ckeditor5-premium-features";
         "ckeditor5-premium-features/"] ∨
  ((key ∉ objectPrototypeMembers) ∧
   ∃ d, d ∈ coreDependencies ++ commercialDependencies ∧
        (key = d ∨ key = String.append d "/dist/index.js")).
Proof.
  rewrite importMap_lookup.
  assert ((∃ d, d ∈ coreDependencies ++ commercialDependencies ∧
                (key = d ∨ key = String.append d "/dist/index.js")) ↔
          key ∈ dependencyKeys coreDependencies ∨
          key ∈ dependencyKeys commercialDependencies) as ->.
  { rewrite !dependencyKeys_elem. split.
    - intros (d & Hd & Hk). apply elem_of_app in Hd as [Hd|Hd]; [left|right];
        by exists d.
    - intros [(d & Hd & Hk)|(d & Hd & Hk)]; exists d;
        (split; [apply elem_of_app; auto | done]). }
  rewrite <- inheritedMember_false.
  destruct (decide (key ∈ ["ckeditor5"; "ckeditor5/"; "ckeditor5-premium-features";
                           "ckeditor5-premium-features/"])) as [Hbase|Hbase].
  - split; [by left|]. intros _.
    repeat (apply elem_of_cons in Hbase as [->|Hbase]; [by eexists|]).
    by apply elem_of_nil in Hbase.
  - rewrite (baseImports_None key Hbase). split.
    + intros Hsome. right. repeat case_decide; [tauto.. |]. by destruct Hsome.
    + intros [?|[Hinh [Hc|Hm]]]; [done| |].
      * rewrite decide_True by done. by eexists.
      * case_decide; [by eexists|]. rewrite decide_True by done. by eexists.
Qed.

(** X17.  With the keys of the import map as the external names, and no
    dependency named with a final slash, an import is external exactly when
    it is [ckeditor5] or [ckeditor5-premium-features], or lies under
    [ckeditor5/] or [ckeditor5-premium-features/], or is the name of a
    dependency or that name followed by [/dist/index.js], the names of the
    members of [Object.prototype] excepted.  Any other file of a dependency
    is bundled, and so is an import of a dependency named [constructor]. *)
Theorem importMap_externals
    (coreDependencies commercialDependencies : list string) (path : string) :
  (∀ d dir, d ∈ coreDependencies ++ commercialDependencies →
            d ≠ String.append dir "/") →
  (isExternal (externalsOf (getImportMap coreDependencies commercialDependencies))
              path = true ↔
   path = "ckeditor5" ∨ path = "ckeditor5-premium-features" ∨
   (∃ rest, path = String.append "ckeditor5/" rest) ∨
   (∃ rest, path = String.append "ckeditor5-premium-features/" rest) ∨
   ((path ∉ objectPrototypeMembers) ∧
    ∃ d, d ∈ coreDependencies ++ commercialDependencies ∧
         (path = d ∨ path = String.append d "/dist/index.js"))).
Proof.
  intros Hdeps.
  set (imports := getImportMap coreDependencies commercialDependencies).
  assert (∀ k, is_Some (imports !! k) → endsWith k "/" = true →
               k = "ckeditor5/" ∨ k = "ckeditor5-premium-features/") as Hdirs.
  { intros k Hk Hend. apply importMap_key in Hk as [Hbase|(_ & d & Hd & [->| ->])].
    - repeat (apply elem_of_cons in Hbase as [->|Hbase];
              [first [discriminate Hend | auto]|]).
      by apply elem_of_nil in Hbase.
    - apply endsWith_slash_spec in Hend as [dir Hdir]. by destruct (Hdeps d dir).
    - by rewrite endsWith_dist in Hend. }
  rewrite isExternal_iff. split.
  - intros (name0 & Hin & [[Hend Hrest]|[Hend ->]]).
    + apply externalsOf_elem in Hin.
      destruct (Hdirs name0 Hin Hend) as [->| ->]; auto.
    + apply externalsOf_elem, importMap_key in Hin as [Hbase|Hdep]; [|by auto 6].
      repeat (apply elem_of_cons in Hbase as [->|Hbase];
              [first [discriminate Hend | auto]|]).
      by apply elem_of_nil in Hbase.
  - assert (∀ k, is_Some (imports !! k) → endsWith k "/" = false →
                 ∃ name0, name0 ∈ externalsOf imports ∧
                   ((endsWith name0 "/" = true ∧
                     ∃ rest, k = String.append name0 rest) ∨
                    (endsWith name0 "/" = false ∧ k = name0))) as Hexact.
    { intros k Hk Hend. exists k. split; [by apply externalsOf_elem | by right]. }
    assert (∀ dir0 rest, is_Some (imports !! dir0) → endsWith dir0 "/" = true →
                 ∃ name0, name0 ∈ externalsOf imports ∧
                   ((endsWith name0 "/" = true ∧
                     ∃ rest', String.append dir0 rest = String.append name0 rest') ∨
                    (endsWith name0 "/" = false ∧ String.append dir0 rest = name0)))
      as Hunder.
    { intros dir0 rest Hk Hend. exists dir0.
      split; [by apply externalsOf_elem|]. left. split; [done|]. by exists rest. }
    intros [->|[->|[[rest ->]|[[rest ->]|(Hinh & d & Hd & Hk)]]]].
    + apply Hexact; [|done]. apply importMap_key. left. apply list_elem_of_here.
    + apply Hexact; [|done]. apply importMap_key. left.
      do 2 apply list_elem_of_further. apply list_elem_of_here.
    + apply Hunder; [|done]. apply importMap_key. left.
      apply list_elem_of_further, list_elem_of_here.
    + apply Hunder; [|done]. apply importMap_key. left.
      do 3 apply list_elem_of_further. apply list_elem_of_here.
    + apply Hexact; [apply importMap_key; right; split; [done|by exists d]|].
      destruct Hk as [->| ->]; [|apply endsWith_dist].
      destruct (endsWith d "/") eqn:Hend; [|done].
      apply endsWith_slash_spec in Hend as [dir Hdir]. by destruct (Hdeps d dir).
Qed.

Lemma importMap_externals_witness :
  let core := ["@ckeditor/ckeditor5-core"; "constructor"] in
  let commercial := ["@ckeditor/ckeditor5-ai"] in
  isExternal (externalsOf (getImportMap core commercial))
             "@ckeditor/ckeditor5-core/dist/index.js" = true ∧
  isExternal (externalsOf (getImportMap core commercial))
             "@ckeditor/ckeditor5-core/tests/manual.js" ≠ true.
Proof.
  intros core commercial.
  assert (∀ d dir, d ∈ core ++ commercial → d ≠ String.append dir "/") as Hdeps.
  { intros d dir Hd Hdir.
    assert (endsWith d "/" = true) as Hend
      by (apply endsWith_slash_spec; by exists dir).
    cbn in Hd.
    repeat (apply elem_of_cons in Hd as [->|Hd]; [discriminate Hend|]).
    by apply elem_of_nil in Hd. }
  split.
  - apply (proj2 (importMap_externals core commercial
                    "@ckeditor/ckeditor5-core/dist/index.js" Hdeps)).
    do 4 right. split.
    + apply inheritedMember_false. reflexivity.
    + exists "@ckeditor/ckeditor5-core". split; [apply list_elem_of_here | by right].
  - intros Hext.
    apply (proj1 (importMap_externals core commercial
                    "@ckeditor/ckeditor5-core/tests/manual.js" Hdeps)) in Hext.
    destruct Hext as [Hx|[Hx|[[rest Hx]|[[rest Hx]|(_ & d & Hd & Hx)]]]];
      try discriminate Hx.
    cbn in Hd.
    repeat (apply elem_of_cons in Hd as [->|Hd];
            [destruct Hx as [Hx|Hx]; discriminate Hx|]).
    by apply elem_of_nil in Hd.
Defined.
End ImportMap.

(** ** The snippet adapter: documents and constants *)

Section Documents.
Lemma groupByDocument_cons (documents : gmap string (list Snippet))
    (snippet : Snippet) (snippets : list Snippet) :
  groupByDocument documents (snippet :: snippets) =
    groupByDocument
      (<[destinationPath snippet :=
           default [] (documents !! destinationPath snippet) ++ [snippet]]> documents)
      snippets.
Proof.
  unfold groupByDocument. cbn [foldl]. f_equal.
  apply map_eq. intros k.
  destruct (documents !! destinationPath snippet) as [l|] eqn:Hdest;
    destruct (decide (k = destinationPath snippet)) as [->|Hk];
    rewrite ?lookup_alter_eq, ?lookup_alter_ne, ?lookup_insert_eq,
            ?lookup_insert_ne, ?Hdest by done; done.
Qed.

Lemma groupByDocument_lookup_eq (snippets : list Snippet)
    (documents : gmap string (list Snippet)) (destination : string) :
  groupByDocument documents snippets !! destination =
    match filter (λ snippet, destinationPath snippet = destination) snippets with
    | [] => documents !! destination
    | added => Some (default [] (documents !! destination) ++ added)
    end.
Proof.
  revert documents. induction snippets as [|snippet snippets IH]; intros documents.
  - done.
  - rewrite groupByDocument_cons, IH, filter_cons.
    destruct (decide (destinationPath snippet = destination)) as [<-|Hne].
    + rewrite lookup_insert_eq.
      destruct (filter _ snippets) as [|x added].
      * by destruct (documents !! destinationPath snippet).
      * destruct (documents !! destinationPath snippet) as [l|]; cbn;
          by rewrite <- ?app_assoc.
    + rewrite lookup_insert_ne by done. done.
Qed.

(** X18.  Grouping by destination: each document ends with the snippets it
    had, followed by the snippets of the list whose destination it is, in
    the order of the list; a destination of no snippet is left as it was.
    Every snippet is in the document of its destination. *)
Theorem groupByDocument_lookup (snippets : list Snippet)
    (documents : gmap string (list Snippet)) :
  (∀ destination,
     groupByDocument documents snippets !! destination =
       match filter (λ snippet, destinationPath snippet = destination) snippets with
       | [] => documents !! destination
       | added => Some (default [] (documents !! destination) ++ added)
       end) ∧
  (∀ snippet, snippet ∈ snippets →
     ∃ l, groupByDocument documents snippets !! destinationPath snippet = Some l ∧
          snippet ∈ l).
Proof.
  split; [apply groupByDocument_lookup_eq|].
  intros snippet Hin. rewrite groupByDocument_lookup_eq.
  assert (snippet ∈ filter (λ x, destinationPath x = destinationPath snippet) snippets)
    as Hfilter by (by apply list_elem_of_filter).
  destruct (filter _ snippets) as [|x added] eqn:Hf; [by apply elem_of_nil in Hfilter|].
  eexists. split; [done|]. apply elem_of_app. by right.
Qed.

Lemma groupByDocument_lookup_witness :
  let page := {| snippetSources := {| html := "/in/a.html"; css := None;
                                      js := Some "/in/a.js" |};
                 snippetName := "a"; outputPath := "/out/snippets";
                 destinationPath := "/out/page.html"; basePath := "..";
                 relativeOutputPath := "../snippets";
                 pageSourcePath := "/docs/page.md" |} in
  ∃ l, groupByDocument ∅ [page] !! "/out/page.html" = Some l ∧ page ∈ l.
Proof.
  intros page.
  apply (proj2 (groupByDocument_lookup [page] ∅) page). apply list_elem_of_here.
Defined.
End Documents.

Section Constants.
Variable Value : Type.
Variable truthyValue : Value → bool.
Variable strictNotEqual : Value → Value → bool.

Lemma objectAssign_lookup (packageConstantDefinitions : list (string * Value))
    (constantDefinitions : gmap string Value) :
  NoDup packageConstantDefinitions.*1 →
  (∀ n v, (n, v) ∈ packageConstantDefinitions →
          objectAssign Value constantDefinitions packageConstantDefinitions !! n
          = Some v) ∧
  (∀ n, n ∉ packageConstantDefinitions.*1 →
        objectAssign Value constantDefinitions packageConstantDefinitions !! n
        = constantDefinitions !! n).
Proof.
  unfold objectAssign. revert constantDefinitions.
  induction packageConstantDefinitions as [|[n0 v0] pkg IH];
    intros defs Hnd.
  - split; [|done]. intros n v Hin. by apply elem_of_nil in Hin.
  - rewrite fmap_cons in Hnd. apply NoDup_cons in Hnd as [Hn0 Hnd].
    cbn [foldl fst snd].
    destruct (IH (<[n0 := v0]> defs) Hnd) as [Hin Hout]. split.
    + intros n v Hnv. apply elem_of_cons in Hnv as [[= -> ->]|Hnv].
      * rewrite Hout by done. apply lookup_insert_eq.
      * by apply Hin.
    + intros n Hn. rewrite fmap_cons in Hn. apply not_elem_of_cons in Hn as [Hne Hn].
      rewrite Hout by done. by apply lookup_insert_ne.
Qed.

Lemma defineConstants_spec (packageConstantDefinitions : list (string * Value))
    (constantDefinitions : gmap string Value) :
  NoDup packageConstantDefinitions.*1 →
  match defineConstants Value truthyValue strictNotEqual
          constantDefinitions packageConstantDefinitions with
  | inl n =>
      ∃ v, (n, v) ∈ packageConstantDefinitions ∧
        ((∃ current,
            constantDefinitions !! n = Some current ∧
            truthyValue current = true ∧ strictNotEqual current v = true) ∨
         (constantDefinitions !! n = None ∧ n ∈ objectPrototypeMembers))
  | inr _ =>
      ∀ n v,
        (n, v) ∈ packageConstantDefinitions →
        (∀ current, constantDefinitions !! n = Some current →
           truthyValue current = false ∨ strictNotEqual current v = false) ∧
        (constantDefinitions !! n = None → n ∉ objectPrototypeMembers)
  end.
Proof.
  revert constantDefinitions.
  induction packageConstantDefinitions as [|[n0 v0] pkg IH]; intros defs Hnd.
  - cbn. intros n v Hin. by apply elem_of_nil in Hin.
  - rewrite fmap_cons in Hnd. apply NoDup_cons in Hnd as [Hn0 Hnd].
    cbn [defineConstants fst].
    assert (∀ n v, (n, v) ∈ pkg → <[n0 := v0]> defs !! n = defs !! n) as Hother.
    { intros n v Hin. apply lookup_insert_ne. intros ->. apply Hn0.
      by apply (list_elem_of_fmap_2 fst _ (n, v)). }
    destruct (match defs !! n0 with
              | Some current => truthyValue current && strictNotEqual current v0
              | None => inheritedMember n0
              end) eqn:Hdup.
    + exists v0. split; [apply list_elem_of_here|].
      destruct (defs !! n0) as [current0|].
      * apply andb_true_iff in Hdup as [Ht Hs]. left. by exists current0.
      * right. split; [done|]. by apply inheritedMember_spec.
    + specialize (IH (<[n0 := v0]> defs) Hnd).
      destruct (defineConstants _ _ _ _ pkg) as [n|d].
      * destruct IH as (v & Hin & Hcase). exists v.
        split; [by apply list_elem_of_further|].
        by rewrite (Hother n v Hin) in Hcase.
      * intros n v Hin. apply elem_of_cons in Hin as [[= -> ->]|Hin].
        -- destruct (defs !! n0) as [current0|].
           ++ split; [|done]. intros current [= <-]. by apply andb_false_iff.
           ++ split; [done|]. intros _. by apply inheritedMember_false.
        -- rewrite <- (Hother n v Hin). by apply IH.
Qed.

Lemma defineConstants_defined (packageConstantDefinitions : list (string * Value))
    (constantDefinitions defined : gmap string Value) :
  defineConstants Value truthyValue strictNotEqual
    constantDefinitions packageConstantDefinitions = inr defined →
  ∀ n, n ∉ packageConstantDefinitions.*1 → defined !! n = constantDefinitions !! n.
Proof.
  revert constantDefinitions.
  induction packageConstantDefinitions as [|[n0 v0] pkg IH]; intros defs Hdef n Hn.
  - cbn in Hdef. by injection Hdef as <-.
  - cbn [defineConstants] in Hdef. rewrite fmap_cons in Hn.
    apply not_elem_of_cons in Hn as [Hne Hn].
    destruct (match defs !! n0 with
              | Some current => truthyValue current && strictNotEqual current v0
              | None => inheritedMember n0
              end); [done|].
    rewrite (IH _ Hdef n Hn). by apply lookup_insert_ne.
Qed.

(** X19.  Merging the constants of a package (an object: its names are
    distinct).  The merge throws, naming a constant of the package, only
    where that constant already has a truthy definition that is not the
    package's value, or has no definition and is named as a member of
    [Object.prototype] (such as [constructor]).  Otherwise every constant
    of the package is defined with the package's value and the other
    definitions are kept; a definition the package replaces in that case
    was falsy or the same value, so a falsy definition (an empty string, 0,
    [false]) is replaced by a different value without an error. *)
Theorem mergeConstants_spec (constantDefinitions : gmap string Value)
    (packageConstantDefinitions : list (string * Value)) :
  NoDup packageConstantDefinitions.*1 →
  (∀ n,
     mergeConstants Value truthyValue strictNotEqual
       constantDefinitions packageConstantDefinitions = inl n →
     ∃ v, (n, v) ∈ packageConstantDefinitions ∧
       ((∃ current,
           constantDefinitions !! n = Some current ∧
           truthyValue current = true ∧ strictNotEqual current v = true) ∨
        (constantDefinitions !! n = None ∧ n ∈ objectPrototypeMembers))) ∧
  (∀ merged,
     mergeConstants Value truthyValue strictNotEqual
       constantDefinitions packageConstantDefinitions = inr merged →
     (∀ n v, (n, v) ∈ packageConstantDefinitions → merged !! n = Some v) ∧
     (∀ n, n ∉ packageConstantDefinitions.*1 →
           merged !! n = constantDefinitions !! n) ∧
     (∀ n v,
        (n, v) ∈ packageConstantDefinitions →
        (∀ current, constantDefinitions !! n = Some current →
           truthyValue current = false ∨ strictNotEqual current v = false) ∧
        (constantDefinitions !! n = None → n ∉ objectPrototypeMembers))).
Proof.
  intros Hnd. unfold mergeConstants.
  pose proof (defineConstants_spec packageConstantDefinitions constantDefinitions Hnd)
    as Hspec.
  pose proof (defineConstants_defined packageConstantDefinitions constantDefinitions)
    as Hdef.
  destruct (defineConstants _ _ _ _ _) as [n0|defined].
  - split; [by intros n [= <-] | done].
  - split; [done|]. intros merged [= <-].
    destruct (objectAssign_lookup packageConstantDefinitions defined Hnd)
      as [Hin Hout].
    split; [exact Hin|]. split; [|exact Hspec].
    intros n Hn. rewrite Hout by done. by apply Hdef.
Qed.
End Constants.

Lemma mergeConstants_spec_witness :
  let truthyValue := truthy in
  let strictNotEqual := λ a b : string, negb (String.eqb a b) in
  let constantDefinitions : gmap string string :=
    <["LICENSE_KEY" := ""]> (<["CDN" := "https://cdn.example"]> ∅) in
  let packageConstantDefinitions :=
    [("LICENSE_KEY", "GPL"); ("CDN", "https://cdn.example")] in
  (∃ merged,
     mergeConstants string truthyValue strictNotEqual
       constantDefinitions packageConstantDefinitions = inr merged ∧
     (∀ n v, (n, v) ∈ packageConstantDefinitions → merged !! n = Some v) ∧
     (∀ n, n ∉ packageConstantDefinitions.*1 →
           merged !! n = constantDefinitions !! n) ∧
     (∀ n v,
        (n, v) ∈ packageConstantDefinitions →
        (∀ current, constantDefinitions !! n = Some current →
           truthyValue current = false ∨ strictNotEqual current v = false) ∧
        (constantDefinitions !! n = None → n ∉ objectPrototypeMembers))) ∧
  ∃ v, ("constructor", v) ∈ [("constructor", "x")] ∧
    ((∃ current,
        (∅ : gmap string string) !! "constructor" = Some current ∧
        truthyValue current = true ∧ strictNotEqual current v = true) ∨
     ((∅ : gmap string string) !! "constructor" = None ∧
      "constructor" ∈ objectPrototypeMembers)).
Proof.
  intros truthyValue strictNotEqual constantDefinitions packageConstantDefinitions.
  split.
  - assert (NoDup packageConstantDefinitions.*1) as Hnd.
    { cbn. apply NoDup_cons. split.
      - intros Hin. apply list_elem_of_singleton in Hin. discriminate.
      - apply NoDup_singleton. }
    eexists. split; [by vm_compute|].
    apply (proj2 (mergeConstants_spec string truthyValue strictNotEqual
                    constantDefinitions packageConstantDefinitions Hnd)).
    by vm_compute.
  - apply (proj1 (mergeConstants_spec string truthyValue strictNotEqual
                    ∅ [("constructor", "x")] ltac:(cbn; apply NoDup_singleton))
             "constructor").
    by vm_compute.
Defined.
